(** * Dosbox automation harness: stroke translation, key dispatch,
      image watching and the virtual-file bridge.

    A shallow embedding of the [Dosbox] React component's imperative
    handle: [toKeyCodes], [sendStrokes], [hasImage], [watchForImage],
    [writeFile] and [getFile]; of its life cycle ([setup], the mount
    effect and its cleanup); and of the crop of the screenshot tool.

    Conventions of the embedding.
    - A JavaScript string is a [string]; each [ascii] stands for one code
      point in U+0000..U+00FF (the Latin-1 range), so that iterating a
      string (array destructuring) yields its characters one by one.
    - A JavaScript number that is a key code is an [N].
    - An exception is a value of type [error]; a computation that may throw
      returns [result A].
    - Effects on the emulator (console output, injected key events,
      timers, file-system calls) are recorded in order in a trace of
      [event]s, next to the mutable state [world]. *)

From Stdlib Require Import NArith ZArith Ascii String Strings.Byte List Bool Lia.
From stdpp Require Import base option list strings gmap.
Import ListNotations.

Local Open Scope string_scope.
Local Open Scope list_scope.
Local Open Scope N_scope.

(** ** JavaScript values and exceptions *)

(** The values a property lookup on [manualMap] can produce: a number, or a
    built-in object or function reached through the prototype chain. *)
Inductive jsval : Type :=
| VUndefined
| VNum (n : N)
| VBuiltin (name : string).

(** The references whose dereference can hit [null] or [undefined]. *)
Inductive nullref : Type :=
| dosapp_current       (* dosapp.current.simulateKeyEvent *)
| runtimeRef_current   (* runtimeRef.current.fs *)
| idb_file.            (* file.contents *)

Inductive error : Type :=
| Error (message : string)       (* throw new Error(message) *)
| TypeError (ref : nullref).     (* property read on null / undefined *)

Definition result (A : Type) : Type := (error + A)%type.

Definition ok {A} (a : A) : result A := inr a.
Definition throw {A} (e : error) : result A := inl e.

Definition bindR {A B} (m : result A) (k : A -> result B) : result B :=
  match m with
  | inl e => inl e
  | inr a => k a
  end.

(** [xs.map(f)] where the callback may throw: the first exception, in
    element order, aborts the whole map. *)
Fixpoint mapR {A B} (f : A -> result B) (xs : list A) : result (list B) :=
  match xs with
  | [] => ok []
  | x :: xs' =>
      bindR (f x) (fun y => bindR (mapR f xs') (fun ys => ok (y :: ys)))
  end.

(** [xs.flatMap(f)] where the callback may throw. *)
Fixpoint flatMapR {A B} (f : A -> result (list B)) (xs : list A)
  : result (list B) :=
  match xs with
  | [] => ok []
  | x :: xs' =>
      bindR (f x) (fun ys => bindR (flatMapR f xs') (fun zs => ok (ys ++ zs)))
  end.

(** JavaScript truthiness, as [if (manualCode)] tests it. *)
Definition truthy (v : jsval) : bool :=
  match v with
  | VUndefined => false
  | VNum n => negb (n =? 0)
  | VBuiltin _ => true
  end.

(** ** Characters and case mapping on the Latin-1 range *)

Definition in_range (lo hi n : N) : bool := (lo <=? n) && (n <=? hi).

(** [char.toUpperCase()] as the list of UTF-16 code units of the result.
    Inside Latin-1 the Unicode mapping is: a-z and the accented small
    letters move down by 32; the micro sign and y-diaeresis leave Latin-1;
    sharp s expands to the two letters SS; everything else is fixed. *)
Definition toUpperCase (char : ascii) : list N :=
  let n := N_of_ascii char in
  if in_range 97 122 n then [n - 32]
  else if n =? 181 then [924]
  else if n =? 223 then [83; 83]
  else if in_range 224 254 n && negb (n =? 247) then [n - 32]
  else if n =? 255 then [376]
  else [n].

(** [s.charCodeAt(0)]; [None] is NaN (empty string). *)
Definition charCodeAt0 (units : list N) : option N := head units.

(** [c.toLowerCase()] for one character of the Latin-1 range, where it
    is exact: A-Z and the accented capital letters move up by 32 (the
    multiplication sign 215 is not a letter). Characters beyond U+00FF,
    which a string of the embedding cannot hold, are not covered. *)
Definition toLowerCase_char (c : ascii) : ascii :=
  let n := N_of_ascii c in
  if in_range 65 90 n then ascii_of_N (n + 32)
  else if in_range 192 222 n && negb (n =? 215) then ascii_of_N (n + 32)
  else c.

(** [command.toLowerCase()]. *)
Fixpoint toLowerCase (s : string) : string :=
  match s with
  | EmptyString => EmptyString
  | String c s' => String (toLowerCase_char c) (toLowerCase s')
  end.

(** The characters of a string, as [[...s]] gives them. *)
Fixpoint chars (s : string) : list ascii :=
  match s with
  | EmptyString => []
  | String c s' => c :: chars s'
  end.

(** ** toKeyCodes *)

(** The own properties of the object literal [manualMap]. *)
Definition manualMap_own : list (string * N) :=
  [("left", 37); ("up", 38); ("right", 39); ("down", 40);
   ("alt", 18); ("enter", 13); ("esc", 27)].

(** The properties [manualMap] inherits from [Object.prototype]. *)
Definition Object_prototype : list (string * jsval) :=
  [("constructor", VBuiltin "Object");
   ("__proto__", VBuiltin "Object.prototype");
   ("hasOwnProperty", VBuiltin "Object.prototype.hasOwnProperty");
   ("isPrototypeOf", VBuiltin "Object.prototype.isPrototypeOf");
   ("propertyIsEnumerable", VBuiltin "Object.prototype.propertyIsEnumerable");
   ("toLocaleString", VBuiltin "Object.prototype.toLocaleString");
   ("toString", VBuiltin "Object.prototype.toString");
   ("valueOf", VBuiltin "Object.prototype.valueOf");
   ("__defineGetter__", VBuiltin "Object.prototype.__defineGetter__");
   ("__defineSetter__", VBuiltin "Object.prototype.__defineSetter__");
   ("__lookupGetter__", VBuiltin "Object.prototype.__lookupGetter__");
   ("__lookupSetter__", VBuiltin "Object.prototype.__lookupSetter__")].

Fixpoint assoc {V} (key : string) (props : list (string * V)) : option V :=
  match props with
  | [] => None
  | (k, v) :: props' => if String.eqb key k then Some v else assoc key props'
  end.

(** [manualMap[key]]: own properties first, then the prototype chain;
    a property found nowhere reads as [undefined]. *)
Definition manualMap (key : string) : jsval :=
  match assoc key manualMap_own with
  | Some n => VNum n
  | None =>
      match assoc key Object_prototype with
      | Some v => v
      | None => VUndefined
      end
  end.

Definition nonAlphanumeric (command : string) (char : ascii) : error :=
  Error ("Got non-alphanumeric char " +:+ String char ""
         +:+ " in command string " +:+ command +:+ ".").

Definition cannotConvert (command : string) : error :=
  Error ("Can't convert " +:+ command +:+ " into keycode.").

(** The callback of [rest.map] for a literal directive. A comparison
    with NaN is false, so NaN falls through to the [throw]. *)
Definition literalKeyCode (command : string) (char : ascii) : result jsval :=
  match charCodeAt0 (toUpperCase char) with
  | Some alphanumCode =>
      if (48 <=? alphanumCode) && (alphanumCode <=? 57) then ok (VNum alphanumCode)
      else if (65 <=? alphanumCode) && (alphanumCode <=? 90) then ok (VNum alphanumCode)
      else throw (nonAlphanumeric command char)
  | None => throw (nonAlphanumeric command char)
  end.

(** The callback of [strokes.flatMap]: one stroke token to its key codes.
    [const [first, ...rest] = command] splits off the first character;
    on the empty string [first] is [undefined], which is not [":"]. *)
Definition strokeKeyCodes (command : string) : result (list jsval) :=
  match command with
  | String ":" rest => mapR (literalKeyCode command) (chars rest)
  | _ =>
      let manualCode := manualMap (toLowerCase command) in
      if truthy manualCode then ok [manualCode]
      else throw (cannotConvert command)
  end.

Definition toKeyCodes (strokes : list string) : result (list jsval) :=
  flatMapR strokeKeyCodes strokes.

(** *** Reading aids for the statements about [toKeyCodes] *)

(** An ASCII letter or digit. *)
Definition is_alnum (c : ascii) : bool :=
  let n := N_of_ascii c in
  in_range 48 57 n || in_range 65 90 n || in_range 97 122 n.

(** The ASCII ordinal of a character once upper-cased. *)
Definition upper_ord (c : ascii) : N :=
  let n := N_of_ascii c in
  if in_range 97 122 n then n - 32 else n.

(** A small ASCII letter. *)
Definition lower_letter (n : ascii) : bool := in_range 97 122 (N_of_ascii n).

(** [tok] spells [name] up to the case of its ASCII letters. *)
Fixpoint case_variant (tok name : string) : bool :=
  match tok, name with
  | EmptyString, EmptyString => true
  | String c tok', String n name' =>
      (Ascii.eqb c n || Ascii.eqb c (ascii_of_N (upper_ord n)))
      && case_variant tok' name'
  | _, _ => false
  end.

(** Does the string hold a capital ASCII letter? *)
Definition has_capital (s : string) : bool :=
  existsb (fun c => in_range 65 90 (N_of_ascii c)) (chars s).

(** The character test of a literal directive, as a predicate. *)
Definition accepted_char (char : ascii) : bool :=
  match charCodeAt0 (toUpperCase char) with
  | Some alphanumCode => in_range 48 57 alphanumCode || in_range 65 90 alphanumCode
  | None => false
  end.

(** The tokens on which the callback of [flatMap] throws: a literal
    directive with a character that fails the test, or a name whose
    lookup is falsy. *)
Definition invalid_stroke (command : string) : bool :=
  match command with
  | String ":" rest => existsb (fun c => negb (accepted_char c)) (chars rest)
  | _ => negb (truthy (manualMap (toLowerCase command)))
  end.

(** ** The emulator, the harness state and the effect monad *)

(** A record of the [FILE_DATA] object store. *)
Record file_record : Type := FileRecord { contents : list byte }.

(** Modelled from the spec: the emulator runtime is an external library;
    of [runtime.fs] only the live virtual file system is kept, as a map
    from paths to file contents. *)
Record DosRuntime : Type := Runtime { fs : gmap string (list byte) }.

(** The emulator's command interface ([runtime.main(...)]); opaque. *)
Inductive DosCommandInterface : Type := CommandInterface.

(** The mutable state the handle closes over: the two refs, [null] until
    [setup] has filled them, and the browser's persistent database
    ['/game'] ([None] while it has not been created). *)
Record world : Type := World {
  dosapp : option DosCommandInterface;
  runtimeRef : option DosRuntime;
  indexedDB : option (gmap string file_record)
}.

(** The state before [setup] has run, and a state after it with an empty
    file system. *)
Definition uninitialised : world :=
  {| dosapp := None; runtimeRef := None; indexedDB := None |}.

Definition initialised : world :=
  {| dosapp := Some CommandInterface;
     runtimeRef := Some {| fs := ∅ |};
     indexedDB := None |}.

(** What a run does to the outside, in order. *)
Inductive event : Type :=
| ConsoleDebug (keycode : jsval) (down : bool)  (* console.debug(`Sending ...`) *)
| KeyEvent (keycode : jsval) (pressed : bool)   (* simulateKeyEvent *)
| Sleep (millis : N)                            (* await sleep(millis) *)
| AnalyzePath (path : string)
| Unlink (path : string)
| CreateFile (path : string) (data : list byte)
| SyncFs
| OpenDB
| Get (path : string).

(** An async function body: it reads and updates the [world], leaves a
    trace, and either returns or throws (a rejected promise). The trace
    and the state reached are kept when it throws. *)
Definition M (A : Type) : Type := world -> list event * world * result A.

Definition ret {A} (a : A) : M A := fun w => ([], w, ok a).

Definition bind {A B} (m : M A) (k : A -> M B) : M B :=
  fun w =>
    match m w with
    | (t1, w1, inl e) => (t1, w1, inl e)
    | (t1, w1, inr a) =>
        match k a w1 with
        | (t2, w2, r) => (t1 ++ t2, w2, r)
        end
    end.

Declare Scope harness_scope.
Delimit Scope harness_scope with harness.
Notation "x <- m ;; k" := (bind m (fun x => k))
  (at level 100, m at next level, right associativity) : harness_scope.
Notation "m ;; k" := (bind m (fun _ => k))
  (at level 100, right associativity) : harness_scope.
Local Open Scope harness_scope.

Definition lift {A} (r : result A) : M A := fun w => ([], w, r).
Definition emit (e : event) : M unit := fun w => ([e], w, ok tt).

(** [for (const x of xs) body]. *)
Fixpoint for_of {A} (xs : list A) (body : A -> M unit) : M unit :=
  match xs with
  | [] => ret tt
  | x :: xs' => body x ;; for_of xs' body
  end.

Definition trace_of {A} (out : list event * world * result A) : list event :=
  fst (fst out).
Definition world_of {A} (out : list event * world * result A) : world :=
  snd (fst out).
Definition result_of {A} (out : list event * world * result A) : result A :=
  snd out.

(** ** sendStrokes *)

Definition sleep (millis : N) : M unit := emit (Sleep millis).

Definition console_debug (keycode : jsval) (down : bool) : M unit :=
  emit (ConsoleDebug keycode down).

(** [dosapp.current.simulateKeyEvent(keycode, pressed)]: a [TypeError]
    while [dosapp.current] is [null]. *)
Definition simulateKeyEvent (keycode : jsval) (pressed : bool) : M unit :=
  fun w =>
    match dosapp w with
    | None => ([], w, throw (TypeError dosapp_current))
    | Some _ => ([KeyEvent keycode pressed], w, ok tt)
    end.

(** The body of the loop of [sendStrokes]. *)
Definition sendStroke (keycode : jsval) : M unit :=
  console_debug keycode true ;;
  simulateKeyEvent keycode true ;;
  sleep 100 ;;
  console_debug keycode false ;;
  simulateKeyEvent keycode false ;;
  sleep 100.

(** The loop of [sendStrokes] over the translated key codes. *)
Definition sendKeyCodes (keycodes : list jsval) : M unit :=
  for_of keycodes sendStroke.

Definition sendStrokes (strokes : list string) : M unit :=
  keycodes <- lift (toKeyCodes strokes) ;;
  sendKeyCodes keycodes.

(** What one key code leaves in the trace when the emulator is there. *)
Definition press_release (keycode : jsval) : list event :=
  [ConsoleDebug keycode true; KeyEvent keycode true; Sleep 100;
   ConsoleDebug keycode false; KeyEvent keycode false; Sleep 100].

(** Every key event of the trace is directly followed by a 100ms sleep. *)
Definition settled (t : list event) : Prop :=
  forall pre keycode pressed post,
    t = pre ++ KeyEvent keycode pressed :: post ->
    exists post', post = Sleep 100 :: post'.

(** The key events of a trace, in order. *)
Fixpoint key_events (t : list event) : list (jsval * bool) :=
  match t with
  | [] => []
  | KeyEvent k b :: t' => (k, b) :: key_events t'
  | _ :: t' => key_events t'
  end.

(** ** hasImage and watchForImage *)

Record WatchImage : Type := {
  sx : Z; sy : Z; sw : Z; sh : Z;
  imageData : string
}.

(** What [imgToBase64(canvasCtx.getImageData(sx, sy, sw, sh))] evaluates
    to on one rendered frame. The canvas belongs to the emulator and
    [imgToBase64] to the module [./crops]; both are taken as given. *)
Definition frame : Type := Z -> Z -> Z -> Z -> string.

Definition hasImage (canvas : frame) (image : WatchImage) : bool :=
  let screenshot := canvas (sx image) (sy image) (sw image) (sh image) in
  String.eqb screenshot (imageData image).

(** [abortSignal && abortSignal.aborted] when the [n]-th [sleep] returns:
    [None] is the omitted argument, else the signal's [aborted] flag over
    the polls. *)
Definition signal_aborted (abortSignal : option (nat -> bool)) (n : nat) : bool :=
  match abortSignal with
  | None => false
  | Some aborted => aborted n
  end.

Section Watch.
(** The frame on the canvas when the [n]-th [sleep] of the loop returns
    (counting from 0). *)
Variable screen : nat -> frame.
Variable abortSignal : option (nat -> bool).
Variable interval : N.
Variable image : WatchImage.

(** [hasImage(image) || (abortSignal && abortSignal.aborted)], as the
    loop condition reads it ([undefined] is falsy). *)
Definition matched_at (n : nat) : bool :=
  hasImage (screen n) image || signal_aborted abortSignal n.

(** The [while (!matched)] loop from its [n]-th iteration on; [matched]
    is [false] on entry. [None]: still looping when the fuel runs out.
    Otherwise the trace of the run. *)
Fixpoint watch_from (fuel n : nat) : option (list event) :=
  match fuel with
  | O => None
  | S fuel' =>
      if matched_at n then Some [Sleep interval]
      else option_map (cons (Sleep interval)) (watch_from fuel' (S n))
  end.

Definition watchForImage (fuel : nat) : option (list event) :=
  watch_from fuel 0%nat.
End Watch.

(** A screen that shows the menu from the third poll on, a screen stuck
    on the boot logo, and the image of the menu. *)
Definition boot_then_menu : nat -> frame :=
  fun n _ _ _ _ => if (n <? 2)%nat then "boot" else "menu".

Definition stuck_on_boot : nat -> frame := fun _ _ _ _ _ => "boot".

Definition menu_image : WatchImage :=
  {| sx := 0; sy := 0; sw := 640; sh := 480; imageData := "menu" |}.

(** ** writeFile and getFile *)

(** [runtimeRef.current.fs]: a [TypeError] while the ref is [null]. *)
Definition runtime_fs : M (gmap string (list byte)) :=
  fun w =>
    match runtimeRef w with
    | None => ([], w, throw (TypeError runtimeRef_current))
    | Some rt => ([], w, ok (fs rt))
    end.

(** Replace the live file system of the runtime (a mutation of the object
    behind [runtimeRef.current]). *)
Definition set_fs (files : gmap string (list byte)) (w : world) : world :=
  {| dosapp := dosapp w;
     runtimeRef := match runtimeRef w with
                   | None => None
                   | Some _ => Some {| fs := files |}
                   end;
     indexedDB := indexedDB w |}.

Definition live (w : world) : gmap string (list byte) :=
  match runtimeRef w with
  | None => ∅
  | Some rt => fs rt
  end.

(** Modelled from the spec: [emscriptenFs.analyzePath(path).exists], true
    when a file exists at [path] in the live virtual file system. *)
Definition analyzePath_exists (path : string) : M bool :=
  fun w => ([AnalyzePath path], w, ok (bool_decide (is_Some (live w !! path)))).

(** Modelled from the spec: [emscriptenFs.unlink(path)] removes the file
    at [path] from the live virtual file system. *)
Definition unlink (path : string) : M unit :=
  fun w => ([Unlink path], set_fs (delete path (live w)) w, ok tt).

(** Modelled from the spec: [fs.createFile(path, contents)] creates the
    file with the given bytes in the live virtual file system. *)
Definition createFile (path : string) (data : list byte) : M unit :=
  fun w => ([CreateFile path data], set_fs (<[path := data]> (live w)) w, ok tt).

Definition writeFile (path : string) (data : list byte) : M unit :=
  _ <- runtime_fs ;;
  exists_ <- analyzePath_exists path ;;
  (if exists_ : bool then unlink path else ret tt) ;;
  createFile path data.

(** Modelled from the spec: [fs.syncFs()] forces a full synchronization of
    the live file system to the persistent store, after which the store
    holds one record per live file. *)
Definition synced (w : world) : world :=
  {| dosapp := dosapp w;
     runtimeRef := runtimeRef w;
     indexedDB := Some (FileRecord <$> live w) |}.

Definition syncFs : M unit := fun w => ([SyncFs], synced w, ok tt).

(** Modelled from the spec: the persistent store is a single key-value
    table keyed by file path, here the store ['FILE_DATA'] of the
    database, empty before it exists. *)
Definition persistent (w : world) : gmap string file_record :=
  match indexedDB w with
  | None => ∅
  | Some store => store
  end.

(** [openDB('/game', 21, {upgrade})]: the upgrade callback creates the
    object store when the database is not there yet. *)
Definition opened (w : world) : world :=
  {| dosapp := dosapp w;
     runtimeRef := runtimeRef w;
     indexedDB := Some (persistent w) |}.

Definition openDB : M unit := fun w => ([OpenDB], opened w, ok tt).

(** [idb.get('FILE_DATA', path)]; [None] is [undefined]. *)
Definition idb_get (path : string) : M (option file_record) :=
  fun w => ([Get path], w, ok (persistent w !! path)).

Definition getFile (path : string) : M (list byte) :=
  _ <- runtime_fs ;;
  syncFs ;;
  openDB ;;
  file <- idb_get path ;;
  match file with
  | None => lift (throw (TypeError idb_file))
  | Some record => ret (contents record)
  end.

(** A state after [setup] with one file in the live file system and a
    stale record of another file in the persistent store. *)
Definition with_autoexec : world :=
  {| dosapp := Some CommandInterface;
     runtimeRef := Some {| fs := {["/game/AUTOEXEC.BAT" := [x40]]} |};
     indexedDB := Some {["/game/OLD.SAV" := FileRecord [x01]]} |}.

(** ** Reading aids for further properties *)

(** The nine lower-case names on which the lookup in [manualMap] is
    truthy: its seven own keys and the two inherited ones. *)
Definition accepted_names : list string :=
  ["left"; "up"; "right"; "down"; "alt"; "enter"; "esc";
   "constructor"; "__proto__"].

(** A character that stops a literal directive: neither an ASCII letter
    or digit nor the sharp s. *)
Definition stopping_char (c : ascii) : Prop :=
  is_alnum c = false /\ N_of_ascii c <> 223.

(** A token on which the translation stops, spelled out: a literal
    directive with a stopping character, or another token whose
    lower-cased spelling is none of the accepted names. *)
Definition rejected_stroke (command : string) : Prop :=
  (exists rest, command = String ":" rest /\ Exists stopping_char (chars rest))
  \/ ((forall rest, command <> String ":" rest)
      /\ ~ In (toLowerCase command) accepted_names).

(** How many key codes a token stands for: its characters after the
    colon for a literal directive, one for a name. *)
Definition stroke_size (command : string) : nat :=
  match command with
  | String ":" rest => String.length rest
  | _ => 1%nat
  end.

(** The values [toKeyCodes] can put out. *)
Definition key_code_value (v : jsval) : Prop :=
  (exists n, v = VNum n
             /\ (48 <= n <= 57 \/ 65 <= n <= 90
                 \/ In n [37; 38; 39; 40; 18; 13; 27]))
  \/ v = VBuiltin "Object" \/ v = VBuiltin "Object.prototype".

(** A string all of whose characters lie in U+0000..U+00FF. *)
Definition latin1 (s : string) : bool :=
  forallb (fun c => N_of_ascii c <=? 255) (chars s).

(** Two outcomes that agree on the key codes, or both throw. *)
Definition same_codes {A} (r1 r2 : result A) : Prop :=
  match r1, r2 with
  | inr a, inr b => a = b
  | inl _, inl _ => True
  | _, _ => False
  end.

(** The time a trace spends suspended, in milliseconds. *)
Fixpoint slept (t : list event) : N :=
  match t with
  | [] => 0
  | Sleep millis :: t' => millis + slept t'
  | _ :: t' => slept t'
  end.

(** ** The life cycle of the component: setup, mount and unmount *)

Record DosboxProps : Type := {
  variant : option string;          (* [None]: not given, defaults to "wdosbox" *)
  zip : string;
  exe : string;
  postStart : option (list string)  (* [None]: not given, defaults to [[]] *)
}.

(** What the page holds besides the refs: the document title and the
    [isError] state of the component. *)
Record browser : Type := Browser {
  document_title : string;
  refs : world;
  isError : bool
}.

(** The emulator library, as far as [setup] meets it: how each awaited
    call settles (a rejection is an [inl]), what [extract] makes of the
    file system of the runtime, and the title DosBox gives the document
    while it starts. *)
Record emulator : Type := {
  import_js_dos : result unit;
  Dos : string -> result DosRuntime;
  fs_extract : string -> string -> DosRuntime -> result DosRuntime;
  fs_chdir : string -> result unit;
  main : list string -> result DosCommandInterface;
  dosbox_title : string
}.

Inductive lifecycle_event : Type :=
| Focus                           (* canvasRef.current.focus() *)
| Import                          (* import('js-dos') *)
| StartDos (wdosboxUrl : string)  (* Dos(canvas, options) *)
| Extract (archive dir : string)  (* runtime.fs.extract *)
| Chdir (dir : string)            (* runtime.fs.chdir *)
| Main (args : list string)       (* runtime.main *)
| Harness (e : event)             (* an effect of [sendStrokes] *)
| ConsoleError (e : error)        (* console.error(error) *)
| Exit.                           (* dosapp.current.exit() *)

Definition L (A : Type) : Type :=
  browser -> list lifecycle_event * browser * result A.

Definition retL {A} (a : A) : L A := fun b => ([], b, ok a).

Definition bindL {A B} (m : L A) (k : A -> L B) : L B :=
  fun b =>
    match m b with
    | (t1, b1, inl e) => (t1, b1, inl e)
    | (t1, b1, inr a) =>
        match k a b1 with
        | (t2, b2, r) => (t1 ++ t2, b2, r)
        end
    end.

Declare Scope lifecycle_scope.
Delimit Scope lifecycle_scope with lifecycle.
Notation "x <- m ;; k" := (bindL m (fun x => k))
  (at level 100, m at next level, right associativity) : lifecycle_scope.
Notation "m ;; k" := (bindL m (fun _ => k))
  (at level 100, right associativity) : lifecycle_scope.

(** [await call]: the call is made, then the promise settles. *)
Definition await {A} (call : lifecycle_event) (settled : result A) : L A :=
  fun b => ([call], b, settled).

Definition read_title : L string := fun b => ([], b, ok (document_title b)).

Definition write_title (title : string) : L unit :=
  fun b =>
    ([], {| document_title := title; refs := refs b; isError := isError b |},
     ok tt).

(** [runtimeRef.current = runtime]; also used for what [extract] does to
    the object behind the ref. *)
Definition set_runtimeRef (runtime : DosRuntime) : L unit :=
  fun b =>
    ([],
     {| document_title := document_title b;
        refs := {| dosapp := dosapp (refs b);
                   runtimeRef := Some runtime;
                   indexedDB := indexedDB (refs b) |};
        isError := isError b |},
     ok tt).

(** [dosapp.current = ci]. *)
Definition set_dosapp (ci : DosCommandInterface) : L unit :=
  fun b =>
    ([],
     {| document_title := document_title b;
        refs := {| dosapp := Some ci;
                   runtimeRef := runtimeRef (refs b);
                   indexedDB := indexedDB (refs b) |};
        isError := isError b |},
     ok tt).

(** A call into the handle, run on the refs of the page. *)
Definition harness {A} (m : M A) : L A :=
  fun b =>
    match m (refs b) with
    | (t, w, r) =>
        (map Harness t,
         {| document_title := document_title b; refs := w;
            isError := isError b |},
         r)
    end.

Definition wdosboxUrl (props : DosboxProps) : string :=
  "/dosbox/" +:+ default "wdosbox" (variant props) +:+ ".js".

Definition setup (em : emulator) (props : DosboxProps) : L unit :=
  (windowTitle <- read_title ;;
   await Import (import_js_dos em) ;;
   runtime <- await (StartDos (wdosboxUrl props)) (Dos em (wdosboxUrl props)) ;;
   set_runtimeRef runtime ;;
   extracted <- await (Extract (zip props) "/game")
                      (fs_extract em (zip props) "/game" runtime) ;;
   set_runtimeRef extracted ;;
   await (Chdir "/game") (fs_chdir em "/game") ;;
   ci <- await (Main ["-c"; "cd game"; "-c"; exe props])
               (main em ["-c"; "cd game"; "-c"; exe props]) ;;
   write_title (dosbox_title em) ;;
   set_dosapp ci ;;
   write_title windowTitle ;;
   harness (sendStrokes (default [] (postStart props))))%lifecycle.

(** The effect run on mount: focus the canvas, run [setup], and on a
    rejection log it and set [isError]. *)
Definition mount (em : emulator) (props : DosboxProps) (b : browser)
  : list lifecycle_event * browser :=
  match setup em props b with
  | (t, b', inl e) =>
      (Focus :: t ++ [ConsoleError e],
       {| document_title := document_title b'; refs := refs b';
          isError := true |})
  | (t, b', inr _) => (Focus :: t, b')
  end.

(** The cleanup of the effect. *)
Definition unmount (b : browser) : list lifecycle_event :=
  match dosapp (refs b) with
  | Some _ => [Exit]
  | None => []
  end.

(** The harness events of a life-cycle trace. *)
Fixpoint harness_events (t : list lifecycle_event) : list event :=
  match t with
  | [] => []
  | Harness e :: t' => e :: harness_events t'
  | _ :: t' => harness_events t'
  end.

(** The page once [setup] has got through [runtime.main]: both refs set,
    title and error state as before; and the calls made up to there. *)
Definition started (b : browser) (runtime : DosRuntime)
    (ci : DosCommandInterface) : browser :=
  {| document_title := document_title b;
     refs := {| dosapp := Some ci; runtimeRef := Some runtime;
                indexedDB := indexedDB (refs b) |};
     isError := isError b |}.

Definition startup_calls (props : DosboxProps) : list lifecycle_event :=
  [Import; StartDos (wdosboxUrl props); Extract (zip props) "/game";
   Chdir "/game"; Main ["-c"; "cd game"; "-c"; exe props]].

(** A freshly rendered page, and an emulator on which every call
    succeeds. *)
Definition fresh (title : string) : browser :=
  {| document_title := title; refs := uninitialised; isError := false |}.

Definition working_emulator : emulator :=
  {| import_js_dos := ok tt;
     Dos := fun _ => ok {| fs := ∅ |};
     fs_extract := fun _ _ _ => ok {| fs := {["/game/GAME.EXE" := [x4d; x5a]]} |};
     fs_chdir := fun _ => ok tt;
     main := fun _ => ok CommandInterface;
     dosbox_title := "DOSBox" |}.

(** ** ScreenshotTool: cropping the captured frame *)

Module ScreenshotTool.
Local Open Scope Z_scope.

(** The [ImageData] of a capture: [data] holds four bytes per pixel, row
    after row. *)
Record ImageData : Type := {
  width : Z; height : Z;
  data : list byte
}.

(** The component state: [screenshot.imageData] ([None] is [null], before
    the first capture) and the four editors. *)
Record tool : Type := Tool {
  screenshot : option ImageData;
  sx : Z; sy : Z; sw : Z; sh : Z
}.

(** [resetEditors]. *)
Definition resetEditors (st : tool) : tool :=
  {| screenshot := screenshot st; sx := 0; sy := 0; sw := 640; sh := 480 |}.

(** [onClickScreenshot], given what
    [sourceCanvas.current.getContext('2d').getImageData(0, 0, 640, 480)]
    returned. *)
Definition onClickScreenshot (captured : ImageData) (st : tool) : tool :=
  resetEditors
    {| screenshot := Some captured;
       sx := sx st; sy := sy st; sw := sw st; sh := sh st |}.

(** [data.slice(start, end)] on a typed array, for integer arguments: a
    negative index counts from the end and both ends are clamped to the
    array; an empty or reversed interval gives the empty array. *)
Definition slice (bytes : list byte) (start end_ : Z) : list byte :=
  let len := Z.of_nat (length bytes) in
  let k := if start <? 0 then Z.max (len + start) 0 else Z.min start len in
  let final := if end_ <? 0 then Z.max (len + end_) 0 else Z.min end_ len in
  take (Z.to_nat (final - k)) (drop (Z.to_nat k) bytes).

(** The values [row] takes in [for (let row = sy; row < sy + sh; row++)]. *)
Definition rows (sy sh : Z) : list Z :=
  map (fun i => sy + Z.of_nat i) (seq 0 (Z.to_nat sh)).

(** What one turn of the loop pushes onto [newData]. *)
Definition cropRow (image : ImageData) (sx sw row : Z) : list byte :=
  let left := width image * row + sx in
  let right := left + sw in
  slice (data image) (left * 4) (right * 4).

(** [newData] when the loop is over. *)
Definition newData (image : ImageData) (sx sy sw sh : Z) : list byte :=
  flat_map (cropRow image sx sw) (rows sy sh).

(** [newData.length > 0 && newData.length % (4 * sw * sh) == 0]; the
    remainder takes the sign of the dividend and is NaN, hence not equal
    to 0, for a zero divisor. *)
Definition accepted (newData : list byte) (sw sh : Z) : bool :=
  let len := Z.of_nat (length newData) in
  (0 <? len)
  && (if 4 * sw * sh =? 0 then false else Z.rem len (4 * sw * sh) =? 0).

(** The selection as a run of bytes: its last row ends inside the data. *)
Definition fits (image : ImageData) (sx sy sw sh : Z) : Prop :=
  4 * (width image * (sy + sh - 1) + sx + sw)
  <= Z.of_nat (length (data image)).

(** What the effect does to the preview canvas. *)
Inductive preview : Type :=
| Untouched                                      (* the [if] is not entered *)
| Drawn (pixels : list byte) (w h : Z)           (* clearRect, putImageData *)
| Warned (points : list byte).                   (* clearRect, console.warn *)

(** The body of the effect; [canvas] tells whether [canvasRef.current]
    is there. *)
Definition cropEffect (canvas : bool) (st : tool) : preview :=
  match screenshot st with
  | Some image =>
      if canvas then
        let cropped := newData image (sx st) (sy st) (sw st) (sh st) in
        if accepted cropped (sw st) (sh st)
        then Drawn cropped (sw st) (sh st)
        else Warned cropped
      else Untouched
  | None => Untouched
  end.

(** A capture of two by two pixels, and an all-black capture of the size
    the tool takes. *)
Definition tiny_frame : ImageData :=
  {| width := 2; height := 2;
     data := [x00; x01; x02; x03; x10; x11; x12; x13;
              x20; x21; x22; x23; x30; x31; x32; x33] |}.

Definition blank_frame : ImageData :=
  {| width := 640; height := 480;
     data := repeat x00 (Z.to_nat (4 * 640 * 480)) |}.

End ScreenshotTool.

(** * Properties *)

(** ** Stroke translation *)

Ltac each_char c :=
  destruct c as [[] [] [] [] [] [] [] []].

Lemma literalKeyCode_alnum command c :
  is_alnum c = true -> literalKeyCode command c = ok (VNum (upper_ord c)).
Proof.
  each_char c; vm_compute; intros H; try reflexivity; discriminate H.
Qed.

Lemma literalKeyCode_accepted command c :
  accepted_char c = true ->
  exists n, literalKeyCode command c = ok (VNum n).
Proof.
  unfold accepted_char, literalKeyCode, in_range.
  destruct (charCodeAt0 (toUpperCase c)) as [n|]; [|discriminate].
  intros H. exists n.
  destruct ((48 <=? n) && (n <=? 57)); [reflexivity|].
  destruct ((65 <=? n) && (n <=? 90)); [reflexivity|discriminate].
Qed.

Lemma literalKeyCode_rejected command c :
  accepted_char c = false ->
  literalKeyCode command c = throw (nonAlphanumeric command c).
Proof.
  unfold accepted_char, literalKeyCode, in_range.
  destruct (charCodeAt0 (toUpperCase c)) as [n|]; [|reflexivity].
  destruct ((48 <=? n) && (n <=? 57)); [discriminate|].
  destruct ((65 <=? n) && (n <=? 90)); [discriminate|reflexivity].
Qed.

Lemma mapR_literal_alnum command cs :
  forallb is_alnum cs = true ->
  mapR (literalKeyCode command) cs = ok (map (fun c => VNum (upper_ord c)) cs).
Proof.
  induction cs as [|c cs IH]; simpl; [reflexivity|].
  intros H. apply andb_prop in H as [Hc Hcs].
  rewrite (literalKeyCode_alnum _ _ Hc). simpl.
  rewrite (IH Hcs). reflexivity.
Qed.

Lemma chars_length s : length (chars s) = String.length s.
Proof. induction s; simpl; congruence. Qed.

Lemma flatMapR_app {A B} (f : A -> result (list B)) xs ys rx ry :
  flatMapR f xs = ok rx -> flatMapR f ys = ok ry ->
  flatMapR f (xs ++ ys) = ok (rx ++ ry).
Proof.
  revert rx. induction xs as [|x xs IH]; simpl; intros rx Hx Hy.
  - injection Hx as <-. exact Hy.
  - destruct (f x) as [e|r]; simpl in *; [discriminate|].
    destruct (flatMapR f xs) as [e|r']; simpl in *; [discriminate|].
    injection Hx as <-. rewrite (IH r' eq_refl Hy). simpl.
    rewrite <- app_assoc. reflexivity.
Qed.

Lemma toKeyCodes_app strokes1 strokes2 ks1 ks2 :
  toKeyCodes strokes1 = ok ks1 -> toKeyCodes strokes2 = ok ks2 ->
  toKeyCodes (strokes1 ++ strokes2) = ok (ks1 ++ ks2).
Proof. apply flatMapR_app. Qed.

Lemma toKeyCodes_single command ks :
  strokeKeyCodes command = ok ks -> toKeyCodes [command] = ok ks.
Proof.
  intros H. unfold toKeyCodes. simpl. rewrite H. simpl.
  rewrite app_nil_r. reflexivity.
Qed.

(** C1. A literal directive [":" + s] whose characters are all ASCII
    letters or digits translates to exactly [len(s)] key codes, the ASCII
    ordinals of its characters upper-cased, in the order of the
    characters; inside a stroke list these codes sit between the codes of
    the tokens before and the codes of the tokens after it; and
    [toKeyCodes([":AB", "enter"])] is [[65, 66, 13]]. *)
Theorem toKeyCodes_literal_directive before s after ks_before ks_after :
  forallb is_alnum (chars s) = true ->
  toKeyCodes before = ok ks_before ->
  toKeyCodes after = ok ks_after ->
  let codes := map (fun c => VNum (upper_ord c)) (chars s) in
  strokeKeyCodes (String ":" s) = ok codes
  /\ length codes = String.length s
  /\ toKeyCodes (before ++ [String ":" s] ++ after)
     = ok (ks_before ++ codes ++ ks_after)
  /\ toKeyCodes [":AB"; "enter"] = ok [VNum 65; VNum 66; VNum 13].
Proof.
  intros Hs Hb Ha codes.
  assert (Hone : strokeKeyCodes (String ":" s) = ok codes).
  { unfold strokeKeyCodes. apply mapR_literal_alnum, Hs. }
  split; [exact Hone|]. split.
  { unfold codes. rewrite length_map. apply chars_length. }
  split; [|reflexivity].
  apply toKeyCodes_app; [exact Hb|].
  apply toKeyCodes_app; [|exact Ha].
  apply toKeyCodes_single, Hone.
Qed.

Lemma toKeyCodes_literal_directive_witness :
  forallb is_alnum (chars "x7") = true
  /\ toKeyCodes ["up"] = ok [VNum 38]
  /\ toKeyCodes ["esc"] = ok [VNum 27]
  /\ toKeyCodes (["up"] ++ [":x7"] ++ ["esc"])
     = ok ([VNum 38] ++ [VNum 88; VNum 55] ++ [VNum 27]).
Proof.
  split; [reflexivity|]. split; [reflexivity|]. split; [reflexivity|].
  apply (toKeyCodes_literal_directive ["up"] "x7" ["esc"] [VNum 38] [VNum 27]);
    reflexivity.
Defined.

(** A token that does not start with a colon goes through the table. *)
Lemma strokeKeyCodes_named command :
  (forall rest, command <> String ":" rest) ->
  strokeKeyCodes command =
    if truthy (manualMap (toLowerCase command))
    then ok [manualMap (toLowerCase command)]
    else throw (cannotConvert command).
Proof.
  intros Hne. destruct command as [|c rest]; [reflexivity|].
  each_char c; try reflexivity.
  exfalso. apply (Hne rest). reflexivity.
Qed.

Lemma toLowerCase_char_variant c n :
  lower_letter n = true ->
  Ascii.eqb c n || Ascii.eqb c (ascii_of_N (upper_ord n)) = true ->
  toLowerCase_char c = n /\ c <> ":"%char.
Proof.
  intros Hn Hc. apply orb_prop in Hc as [Hc|Hc];
    apply Ascii.eqb_eq in Hc; subst c;
    each_char n; try discriminate Hn; split; (reflexivity || discriminate).
Qed.

Lemma toLowerCase_variant tok name :
  forallb lower_letter (chars name) = true ->
  case_variant tok name = true ->
  toLowerCase tok = name.
Proof.
  revert name. induction tok as [|c tok IH]; intros [|n name]; simpl;
    try discriminate; [reflexivity|].
  intros Hn Hv.
  apply andb_prop in Hn as [Hn Hname]. apply andb_prop in Hv as [Hc Hv].
  destruct (toLowerCase_char_variant c n Hn Hc) as [-> _].
  rewrite (IH name Hname Hv). reflexivity.
Qed.

Lemma case_variant_no_colon tok name rest :
  forallb lower_letter (chars name) = true ->
  case_variant tok name = true ->
  tok <> String ":" rest.
Proof.
  intros Hn Hv ->. destruct name as [|n name];
    cbn [case_variant chars forallb] in *; [discriminate|].
  apply andb_prop in Hn as [Hn _]. apply andb_prop in Hv as [Hc _].
  destruct (toLowerCase_char_variant _ n Hn Hc) as [_ Hne]. congruence.
Qed.

(** C3. A token that spells one of the seven key names in any letter case
    translates to exactly one key code, the one of the table: left 37,
    up 38, right 39, down 40, alt 18, enter 13, esc 27. *)
Theorem toKeyCodes_named_key tok name code :
  In (name, code)
     [("left", 37); ("up", 38); ("right", 39); ("down", 40);
      ("alt", 18); ("enter", 13); ("esc", 27)] ->
  case_variant tok name = true ->
  strokeKeyCodes tok = ok [VNum code] /\ toKeyCodes [tok] = ok [VNum code].
Proof.
  intros Hin Hv.
  assert (Hone : strokeKeyCodes tok = ok [VNum code]).
  { assert (Hname : forallb lower_letter (chars name) = true
                    /\ manualMap name = VNum code).
    { simpl in Hin.
      repeat (destruct Hin as [Hin|Hin];
              [injection Hin as <- <-; split; reflexivity|]).
      destruct Hin. }
    destruct Hname as [Hlow Hmap].
    rewrite strokeKeyCodes_named
      by (intros rest; exact (case_variant_no_colon _ _ rest Hlow Hv)).
    rewrite (toLowerCase_variant _ _ Hlow Hv), Hmap.
    simpl in Hin.
    repeat (destruct Hin as [Hin|Hin]; [injection Hin as <- <-; reflexivity|]).
    destruct Hin. }
  split; [exact Hone|]. apply toKeyCodes_single, Hone.
Qed.

Lemma toKeyCodes_named_key_witness :
  In ("enter", 13)
     [("left", 37); ("up", 38); ("right", 39); ("down", 40);
      ("alt", 18); ("enter", 13); ("esc", 27)]
  /\ case_variant "eNtEr" "enter" = true
  /\ strokeKeyCodes "eNtEr" = ok [VNum 13]
  /\ toKeyCodes ["eNtEr"] = ok [VNum 13].
Proof.
  assert (Hin : In ("enter", 13)
     [("left", 37); ("up", 38); ("right", 39); ("down", 40);
      ("alt", 18); ("enter", 13); ("esc", 27)]).
  { simpl. do 5 right. left. reflexivity. }
  split; [exact Hin|]. split; [reflexivity|].
  exact (toKeyCodes_named_key "eNtEr" "enter" 13 Hin eq_refl).
Defined.

(** *** When translation throws *)

Lemma mapR_literal_ok command cs :
  existsb (fun c => negb (accepted_char c)) cs = false ->
  exists ks, mapR (literalKeyCode command) cs = ok ks
             /\ length ks = length cs.
Proof.
  induction cs as [|c cs IH]; simpl; [exists []; split; reflexivity|].
  intros H. apply orb_false_elim in H as [Hc Hcs].
  apply negb_false_iff in Hc.
  destruct (literalKeyCode_accepted command c Hc) as [n ->].
  destruct (IH Hcs) as [ks [-> Hlen]]. simpl.
  exists (VNum n :: ks). split; [reflexivity|]. simpl. congruence.
Qed.

(** The error of a literal directive names the first character that
    fails the test and the whole token. *)
Lemma mapR_literal_throws command cs :
  existsb (fun c => negb (accepted_char c)) cs = true ->
  exists pre c post,
    cs = pre ++ c :: post
    /\ forallb accepted_char pre = true
    /\ accepted_char c = false
    /\ mapR (literalKeyCode command) cs = throw (nonAlphanumeric command c).
Proof.
  induction cs as [|c cs IH]; simpl; [discriminate|].
  destruct (accepted_char c) eqn:Hc; simpl.
  - intros H. destruct (IH H) as (pre & c' & post & -> & Hpre & Hc' & Hmap).
    exists (c :: pre), c', post. simpl. rewrite Hc, Hpre.
    repeat split; try assumption.
    destruct (literalKeyCode_accepted command c Hc) as [n ->]. simpl.
    rewrite Hmap. reflexivity.
  - intros _. exists [], c, cs.
    split; [reflexivity|]. split; [reflexivity|]. split; [exact Hc|].
    rewrite (literalKeyCode_rejected command c Hc). reflexivity.
Qed.

Lemma strokeKeyCodes_invalid command :
  invalid_stroke command = true ->
  exists message, strokeKeyCodes command = throw (Error message).
Proof.
  destruct command as [|c rest].
  - intros _. eexists. reflexivity.
  - destruct (Ascii.eqb_spec c ":") as [->|Hne].
    + unfold invalid_stroke, strokeKeyCodes. intros H.
      destruct (mapR_literal_throws (String ":" rest) _ H)
        as (pre & c & post & _ & _ & _ & ->).
      eexists. reflexivity.
    + assert (Hnc : forall r, String c rest <> String ":" r) by congruence.
      rewrite strokeKeyCodes_named by exact Hnc.
      assert (Hinv : invalid_stroke (String c rest)
                     = negb (truthy (manualMap (toLowerCase (String c rest))))).
      { each_char c; try reflexivity. congruence. }
      rewrite Hinv. intros H. apply negb_true_iff in H. rewrite H.
      eexists. reflexivity.
Qed.

Lemma strokeKeyCodes_valid command :
  invalid_stroke command = false ->
  exists ks, strokeKeyCodes command = ok ks.
Proof.
  destruct command as [|c rest].
  - discriminate.
  - destruct (Ascii.eqb_spec c ":") as [->|Hne].
    + unfold invalid_stroke, strokeKeyCodes. intros H.
      destruct (mapR_literal_ok (String ":" rest) _ H) as [ks [-> _]].
      eexists. reflexivity.
    + assert (Hnc : forall r, String c rest <> String ":" r) by congruence.
      rewrite strokeKeyCodes_named by exact Hnc.
      assert (Hinv : invalid_stroke (String c rest)
                     = negb (truthy (manualMap (toLowerCase (String c rest))))).
      { each_char c; try reflexivity. congruence. }
      rewrite Hinv. intros H. apply negb_false_iff in H. rewrite H.
      eexists. reflexivity.
Qed.

(** [toKeyCodes] throws exactly when some token is invalid. *)
Lemma toKeyCodes_throws_iff strokes :
  existsb invalid_stroke strokes = true <->
  exists message, toKeyCodes strokes = throw (Error message).
Proof.
  unfold toKeyCodes.
  induction strokes as [|command strokes IH]; simpl.
  - split; [discriminate|]. intros [m H]. discriminate H.
  - destruct (invalid_stroke command) eqn:Hc; simpl.
    + destruct (strokeKeyCodes_invalid _ Hc) as [m ->]. simpl.
      split; [eauto|reflexivity].
    + destruct (strokeKeyCodes_valid _ Hc) as [ks ->]. simpl.
      rewrite IH. destruct (flatMapR strokeKeyCodes strokes) as [e|r]; simpl.
      * split; intros [m H]; exists m; exact H.
      * split; intros [m H]; discriminate H.
Qed.

Lemma accepted_char_spec c :
  accepted_char c = is_alnum c || (N_of_ascii c =? 223).
Proof. each_char c; reflexivity. Qed.

Lemma toLowerCase_no_capital s : has_capital (toLowerCase s) = false.
Proof.
  unfold has_capital. induction s as [|c s IH]; [reflexivity|].
  cbn [toLowerCase chars existsb]. rewrite IH, orb_false_r.
  each_char c; reflexivity.
Qed.

(** The keys with no capital letter on which the lookup is truthy: the
    seven names of the table and two names inherited from the prototype. *)
Lemma manualMap_truthy key :
  has_capital key = false ->
  truthy (manualMap key) = true <->
  In key ["left"; "up"; "right"; "down"; "alt"; "enter"; "esc";
          "constructor"; "__proto__"].
Proof.
  intros Hcap. unfold manualMap, manualMap_own, Object_prototype, assoc.
  repeat match goal with
         | |- context [String.eqb key ?k] =>
             destruct (String.eqb_spec key k) as [->|?]
         end;
    try discriminate Hcap;
    try (split; [intros _; cbn [In]; tauto | reflexivity]).
  split; [discriminate|].
  cbn [In]. intros H.
  repeat (destruct H as [H|H]; [congruence|]). destruct H.
Qed.

(** A token that is not a literal directive is accepted exactly when its
    lower-cased spelling is one of these nine names. *)
Lemma strokeKeyCodes_named_accepts command :
  (forall rest, command <> String ":" rest) ->
  (exists ks, strokeKeyCodes command = ok ks) <->
  In (toLowerCase command)
     ["left"; "up"; "right"; "down"; "alt"; "enter"; "esc";
      "constructor"; "__proto__"].
Proof.
  intros Hne. rewrite (strokeKeyCodes_named command Hne).
  rewrite <- (manualMap_truthy _ (toLowerCase_no_capital command)).
  destruct (truthy (manualMap (toLowerCase command))).
  - split; [reflexivity|]. intros _. eexists. reflexivity.
  - split; [intros [ks H]; discriminate H | discriminate].
Qed.

(** C2. [toKeyCodes] does not throw on every token outside the
    vocabulary: a name that [manualMap] inherits from [Object.prototype]
    is looked up successfully and its value, not a number, is returned as
    a key code; and the sharp s, whose upper-casing starts with the letter
    S, passes the test of a literal directive. *)
Theorem toKeyCodes_accepts_unlisted_tokens :
  assoc "constructor" manualMap_own = None
  /\ toKeyCodes ["constructor"] = ok [VBuiltin "Object"]
  /\ toKeyCodes ["__proto__"] = ok [VBuiltin "Object.prototype"]
  /\ is_alnum (ascii_of_N 223) = false
  /\ toKeyCodes [String ":" (String (ascii_of_N 223) "")] = ok [VNum 83].
Proof. repeat split. Qed.

(** ** Key dispatch *)

Lemma sendStroke_ready keycode w ci :
  dosapp w = Some ci ->
  sendStroke keycode w = (press_release keycode, w, ok tt).
Proof. destruct w as [d r i]. simpl. intros ->. reflexivity. Qed.

Lemma sendKeyCodes_ready keycodes w ci :
  dosapp w = Some ci ->
  sendKeyCodes keycodes w = (flat_map press_release keycodes, w, ok tt).
Proof.
  intros Hd. unfold sendKeyCodes.
  induction keycodes as [|k ks IH]; [reflexivity|].
  cbn [for_of flat_map]. unfold bind at 1.
  rewrite (sendStroke_ready k w ci Hd), IH. reflexivity.
Qed.

Lemma sendStrokes_translated strokes keycodes w :
  toKeyCodes strokes = ok keycodes ->
  sendStrokes strokes w = sendKeyCodes keycodes w.
Proof.
  intros H. unfold sendStrokes, bind, lift. rewrite H. unfold ok.
  destruct (sendKeyCodes keycodes w) as [[t w'] r]. reflexivity.
Qed.

Lemma sendStrokes_throws strokes e w :
  toKeyCodes strokes = throw e ->
  sendStrokes strokes w = ([], w, throw e).
Proof. intros H. unfold sendStrokes, bind, lift. rewrite H. reflexivity. Qed.

Lemma key_events_press_release keycodes :
  key_events (flat_map press_release keycodes)
  = flat_map (fun c => [(c, true); (c, false)]) keycodes.
Proof.
  induction keycodes as [|k ks IH]; [reflexivity|].
  cbn [flat_map]. unfold press_release at 1. cbn [app key_events].
  rewrite IH. reflexivity.
Qed.

Lemma settled_nil : settled [].
Proof. intros [|e pre] k b post H; discriminate H. Qed.

Lemma settled_skip e t :
  (forall k b, e <> KeyEvent k b) -> settled t -> settled (e :: t).
Proof.
  intros He Ht [|e' pre] k b post H; simpl in H.
  - injection H as -> _. exfalso. exact (He k b eq_refl).
  - injection H as _ H. exact (Ht pre k b post H).
Qed.

Lemma settled_key k b t :
  settled (Sleep 100 :: t) -> settled (KeyEvent k b :: Sleep 100 :: t).
Proof.
  intros Ht [|e' pre] k' b' post H; simpl in H.
  - injection H as _ _ <-. eauto.
  - injection H as _ H. exact (Ht pre k' b' post H).
Qed.

Lemma settled_press_release keycodes :
  settled (flat_map press_release keycodes).
Proof.
  induction keycodes as [|k ks IH]; [exact settled_nil|].
  cbn [flat_map]. unfold press_release at 1. cbn [app].
  apply settled_skip; [discriminate|].
  apply settled_key, settled_skip; [discriminate|].
  apply settled_skip; [discriminate|].
  apply settled_key, settled_skip; [discriminate|].
  exact IH.
Qed.

(** C4. With the emulator initialised, sending the key codes
    [c1, ..., cn] runs to completion and injects exactly the key events
    down(c1), up(c1), ..., down(cn), up(cn), one after the other in this
    order; each of them is directly followed by a 100ms suspension, and
    nothing else happens besides the two debug lines per code. The same
    holds for [sendStrokes] on any stroke list that translates to these
    codes. *)
Theorem sendStrokes_event_order keycodes w ci :
  dosapp w = Some ci ->
  sendKeyCodes keycodes w = (flat_map press_release keycodes, w, ok tt)
  /\ (forall strokes,
        toKeyCodes strokes = ok keycodes ->
        sendStrokes strokes w = (flat_map press_release keycodes, w, ok tt))
  /\ key_events (flat_map press_release keycodes)
     = flat_map (fun c => [(c, true); (c, false)]) keycodes
  /\ settled (flat_map press_release keycodes).
Proof.
  intros Hd. split; [exact (sendKeyCodes_ready _ _ _ Hd)|]. split.
  { intros strokes Ht. rewrite (sendStrokes_translated _ _ _ Ht).
    exact (sendKeyCodes_ready _ _ _ Hd). }
  split; [apply key_events_press_release | apply settled_press_release].
Qed.

Lemma sendStrokes_event_order_witness :
  dosapp initialised = Some CommandInterface
  /\ sendKeyCodes [VNum 65; VNum 27] initialised
     = (press_release (VNum 65) ++ press_release (VNum 27), initialised, ok tt)
  /\ sendStrokes [":a"; "esc"] initialised
     = (press_release (VNum 65) ++ press_release (VNum 27), initialised, ok tt).
Proof.
  split; [reflexivity|]. split.
  - exact (proj1 (sendStrokes_event_order [VNum 65; VNum 27]
                    initialised CommandInterface eq_refl)).
  - exact (proj1 (proj2 (sendStrokes_event_order [VNum 65; VNum 27]
                           initialised CommandInterface eq_refl))
             [":a"; "esc"] eq_refl).
Defined.

(** The claim that every non-empty stroke list fails on an uninitialised
    emulator does not hold: the lone directive [":"] translates to no key
    code at all, the loop body never runs and the call returns. *)
Lemma sendStrokes_not_ready_empty_translation :
  [":"] <> @nil string
  /\ toKeyCodes [":"] = ok []
  /\ dosapp uninitialised = None
  /\ sendStrokes [":"] uninitialised = ([], uninitialised, ok tt)
  /\ ~ (exists t w',
          sendStrokes [":"] uninitialised
          = (t, w', throw (TypeError dosapp_current))).
Proof.
  split; [discriminate|]. repeat (split; [reflexivity|]).
  intros (t & w' & H). discriminate H.
Qed.

(** A stroke list that translates to no key code returns at once, in
    any state. *)
Lemma sendStrokes_empty_translation strokes w :
  toKeyCodes strokes = ok [] ->
  sendStrokes strokes w = ([], w, ok tt).
Proof. intros H. rewrite (sendStrokes_translated _ _ w H). reflexivity. Qed.

(** C9. While [dosapp.current] is still [null], sending a stroke list that
    translates to at least one key code fails with the [TypeError] of the
    null dereference at the first key-down, after the first debug line
    and before any key event or delay. *)
Theorem sendStrokes_not_ready strokes keycode keycodes w :
  dosapp w = None ->
  toKeyCodes strokes = ok (keycode :: keycodes) ->
  sendStrokes strokes w
  = ([ConsoleDebug keycode true], w, throw (TypeError dosapp_current))
  /\ key_events (trace_of (sendStrokes strokes w)) = [].
Proof.
  intros Hd Ht.
  assert (H : sendStrokes strokes w
              = ([ConsoleDebug keycode true], w, throw (TypeError dosapp_current))).
  { rewrite (sendStrokes_translated _ _ _ Ht).
    destruct w as [d r i]. simpl in Hd. subst d. reflexivity. }
  split; [exact H|]. rewrite H. reflexivity.
Qed.

Lemma sendStrokes_not_ready_witness :
  dosapp uninitialised = None
  /\ toKeyCodes ["enter"; ":ok"] = ok [VNum 13; VNum 79; VNum 75]
  /\ sendStrokes ["enter"; ":ok"] uninitialised
     = ([ConsoleDebug (VNum 13) true], uninitialised,
        throw (TypeError dosapp_current)).
Proof.
  split; [reflexivity|]. split; [reflexivity|].
  exact (proj1 (sendStrokes_not_ready ["enter"; ":ok"] (VNum 13)
                  [VNum 79; VNum 75] uninitialised eq_refl eq_refl)).
Defined.

(** C10. A token outside the vocabulary does not always stop the call:
    the name [constructor] is not a key of the table, yet it translates
    (to the inherited [Object]), so [sendStrokes([":A", "constructor"])]
    on an initialised emulator does not fail and injects four key
    events, two of them for a value that is no key code. *)
Theorem sendStrokes_dispatches_unlisted_name :
  assoc "constructor" manualMap_own = None
  /\ toKeyCodes [":A"; "constructor"] = ok [VNum 65; VBuiltin "Object"]
  /\ sendStrokes [":A"; "constructor"] initialised
     = (press_release (VNum 65) ++ press_release (VBuiltin "Object"),
        initialised, ok tt)
  /\ key_events (trace_of (sendStrokes [":A"; "constructor"] initialised))
     = [(VNum 65, true); (VNum 65, false);
        (VBuiltin "Object", true); (VBuiltin "Object", false)].
Proof. repeat split. Qed.

(** X23. The whole stroke list is translated before anything is
    dispatched: when the translation throws, that is when some token
    fails the test the code makes ([invalid_stroke]), [sendStrokes] fails
    with the error of the translation, its trace is empty (no key event,
    no delay, no debug line) and the state is untouched, whether or not
    the emulator is initialised and however many valid tokens come
    first. *)
Theorem sendStrokes_atomic strokes w :
  existsb invalid_stroke strokes = true ->
  exists message,
    toKeyCodes strokes = throw (Error message)
    /\ sendStrokes strokes w = ([], w, throw (Error message))
    /\ key_events (trace_of (sendStrokes strokes w)) = [].
Proof.
  intros H. apply toKeyCodes_throws_iff in H as [message H].
  exists message. split; [exact H|].
  rewrite (sendStrokes_throws _ _ w H). split; reflexivity.
Qed.

Lemma sendStrokes_atomic_witness :
  existsb invalid_stroke [":A"; "enter"; "bogus"] = true
  /\ exists message,
       toKeyCodes [":A"; "enter"; "bogus"] = throw (Error message)
       /\ sendStrokes [":A"; "enter"; "bogus"] initialised
          = ([], initialised, throw (Error message))
       /\ key_events (trace_of (sendStrokes [":A"; "enter"; "bogus"] initialised))
          = [].
Proof.
  split; [reflexivity|].
  exact (sendStrokes_atomic [":A"; "enter"; "bogus"] initialised eq_refl).
Defined.

(** ** Watching for an image *)

Section WatchProperties.
Variable screen : nat -> frame.
Variable abortSignal : option (nat -> bool).
Variable interval : N.
Variable image : WatchImage.

Abbreviation matched := (matched_at screen abortSignal image).
Abbreviation loop := (watch_from screen abortSignal interval image).

(** The loop leaves at the first iteration whose check succeeds, having
    slept once per iteration. *)
Lemma watch_from_stops k : forall n fuel,
  (forall j, (j < k)%nat -> matched (n + j)%nat = false) ->
  matched (n + k)%nat = true ->
  (k < fuel)%nat ->
  loop fuel n = Some (repeat (Sleep interval) (S k)).
Proof.
  induction k as [|k IH]; intros n [|fuel] Hbefore Hat Hfuel; try lia.
  - cbn [watch_from]. rewrite Nat.add_0_r in Hat. rewrite Hat. reflexivity.
  - cbn [watch_from].
    specialize (Hbefore 0%nat ltac:(lia)) as H0.
    rewrite Nat.add_0_r in H0. rewrite H0.
    rewrite (IH (S n) fuel).
    + reflexivity.
    + intros j Hj. replace (S n + j)%nat with (n + S j)%nat by lia.
      apply Hbefore. lia.
    + replace (S n + k)%nat with (n + S k)%nat by lia. exact Hat.
    + lia.
Qed.

(** As long as every check fails the loop is still running. *)
Lemma watch_from_runs fuel : forall n,
  (forall j, (j < fuel)%nat -> matched (n + j)%nat = false) ->
  loop fuel n = None.
Proof.
  induction fuel as [|fuel IH]; intros n Hnever; [reflexivity|].
  cbn [watch_from].
  specialize (Hnever 0%nat ltac:(lia)) as H0.
  rewrite Nat.add_0_r in H0. rewrite H0.
  rewrite (IH (S n)); [reflexivity|].
  intros j Hj. replace (S n + j)%nat with (n + S j)%nat by lia.
  apply Hnever. lia.
Qed.

Lemma matched_at_false n :
  hasImage (screen n) image = false /\ signal_aborted abortSignal n = false ->
  matched n = false.
Proof. unfold matched_at. intros [-> ->]. reflexivity. Qed.

Lemma matched_at_true n :
  hasImage (screen n) image = true \/ signal_aborted abortSignal n = true ->
  matched n = true.
Proof.
  unfold matched_at. intros [-> | ->]; [reflexivity|].
  apply orb_true_r.
Qed.
End WatchProperties.

(** C5. [watchForImage] sleeps for the interval and then checks, again and
    again. If the [k]-th check is the first at which the image is on the
    screen or the signal is aborted, the loop ends right there, after
    [k+1] sleeps and nothing else; an aborted signal ends it also when the
    image never shows. While neither holds it keeps running: whatever the
    number of iterations allowed, it has not returned. *)
Theorem watchForImage_polls screen abortSignal interval image :
  (forall k fuel,
      hasImage (screen k) image = true \/ signal_aborted abortSignal k = true ->
      (forall j, (j < k)%nat ->
         hasImage (screen j) image = false
         /\ signal_aborted abortSignal j = false) ->
      (k < fuel)%nat ->
      watchForImage screen abortSignal interval image fuel
      = Some (repeat (Sleep interval) (S k)))
  /\ (forall k fuel aborted,
      abortSignal = Some aborted ->
      (forall j, hasImage (screen j) image = false) ->
      aborted k = true ->
      (forall j, (j < k)%nat -> aborted j = false) ->
      (k < fuel)%nat ->
      watchForImage screen abortSignal interval image fuel
      = Some (repeat (Sleep interval) (S k)))
  /\ (forall fuel,
      (forall j, (j < fuel)%nat ->
         hasImage (screen j) image = false
         /\ signal_aborted abortSignal j = false) ->
      watchForImage screen abortSignal interval image fuel = None).
Proof.
  assert (Hstop : forall k fuel,
      hasImage (screen k) image = true \/ signal_aborted abortSignal k = true ->
      (forall j, (j < k)%nat ->
         hasImage (screen j) image = false
         /\ signal_aborted abortSignal j = false) ->
      (k < fuel)%nat ->
      watchForImage screen abortSignal interval image fuel
      = Some (repeat (Sleep interval) (S k))).
  { intros k fuel Hk Hbefore Hfuel. unfold watchForImage.
    apply watch_from_stops; [|apply matched_at_true; exact Hk|exact Hfuel].
    intros j Hj. apply matched_at_false, Hbefore, Hj. }
  split; [exact Hstop|]. split.
  - intros k fuel aborted -> Hnever Hk Hbefore Hfuel.
    apply Hstop; [right; exact Hk| |exact Hfuel].
    intros j Hj. split; [apply Hnever|apply Hbefore, Hj].
  - intros fuel Hnever. unfold watchForImage.
    apply watch_from_runs. intros j Hj. apply matched_at_false, Hnever, Hj.
Qed.

Lemma watchForImage_polls_witness :
  watchForImage boot_then_menu None 64 menu_image 10
  = Some [Sleep 64; Sleep 64; Sleep 64]
  /\ watchForImage stuck_on_boot (Some (fun n => (1 <=? n)%nat)) 64 menu_image 10
     = Some [Sleep 64; Sleep 64]
  /\ watchForImage stuck_on_boot None 64 menu_image 10 = None.
Proof.
  split; [|split].
  - apply (proj1 (watchForImage_polls boot_then_menu None 64 menu_image)
             2%nat 10%nat).
    + left. reflexivity.
    + intros [|[|j]] Hj; solve [split; reflexivity | lia].
    + lia.
  - apply (proj1 (proj2 (watchForImage_polls stuck_on_boot
                           (Some (fun n => (1 <=? n)%nat)) 64 menu_image))
             1%nat 10%nat (fun n => (1 <=? n)%nat)).
    + reflexivity.
    + intros j. reflexivity.
    + reflexivity.
    + intros [|j] Hj; [reflexivity | lia].
    + lia.
  - apply (proj2 (proj2 (watchForImage_polls stuck_on_boot None 64 menu_image))
             10%nat).
    intros j _. split; reflexivity.
Defined.

(** ** The virtual-file bridge *)

Lemma live_set_fs files w rt :
  runtimeRef w = Some rt -> live (set_fs files w) = files.
Proof. destruct w as [d r i]. simpl. intros ->. reflexivity. Qed.

Lemma set_fs_set_fs files files' w :
  set_fs files' (set_fs files w) = set_fs files' w.
Proof. destruct w as [d [rt|] i]; reflexivity. Qed.

Lemma writeFile_ready path data w rt :
  runtimeRef w = Some rt ->
  writeFile path data w =
    (AnalyzePath path
       :: (if bool_decide (is_Some (fs rt !! path)) then [Unlink path] else [])
       ++ [CreateFile path data],
     set_fs (<[path := data]> (fs rt)) w,
     ok tt).
Proof.
  intros Hrt.
  assert (Hlive : live w = fs rt) by (unfold live; rewrite Hrt; reflexivity).
  unfold writeFile, bind, runtime_fs, analyzePath_exists. rewrite Hrt, Hlive.
  destruct (bool_decide (is_Some (fs rt !! path))).
  - unfold unlink, createFile, ok. rewrite Hlive.
    rewrite (live_set_fs _ w rt Hrt), set_fs_set_fs, insert_delete_eq.
    reflexivity.
  - unfold ret, createFile, ok. rewrite Hlive. reflexivity.
Qed.

Lemma opened_synced w : opened (synced w) = synced w.
Proof. reflexivity. Qed.

Lemma persistent_synced w path :
  persistent (synced w) !! path = FileRecord <$> (live w !! path).
Proof. unfold persistent, synced. cbn [indexedDB]. apply lookup_fmap. Qed.

Lemma getFile_ready path w rt :
  runtimeRef w = Some rt ->
  getFile path w =
    ([SyncFs; OpenDB; Get path], synced w,
     match persistent (synced w) !! path with
     | None => throw (TypeError idb_file)
     | Some record => ok (contents record)
     end).
Proof.
  intros Hrt. unfold getFile, bind, runtime_fs, syncFs, openDB, idb_get.
  rewrite Hrt. unfold ok. rewrite opened_synced.
  destruct (persistent (synced w) !! path) as [record|]; reflexivity.
Qed.

(** C7. With the runtime there, [writeFile] asks whether [path] exists in
    the live file system; when it does the file is unlinked and then
    created, when it does not the file is created with no unlink before;
    either way the live file system ends with exactly the given bytes at
    [path] and every other path as it was. *)
Theorem writeFile_unlinks_existing path data w rt :
  runtimeRef w = Some rt ->
  (is_Some (fs rt !! path) ->
     trace_of (writeFile path data w)
     = [AnalyzePath path; Unlink path; CreateFile path data])
  /\ (fs rt !! path = None ->
     trace_of (writeFile path data w)
     = [AnalyzePath path; CreateFile path data])
  /\ result_of (writeFile path data w) = ok tt
  /\ live (world_of (writeFile path data w)) = <[path := data]> (fs rt).
Proof.
  intros Hrt. rewrite (writeFile_ready path data w rt Hrt).
  unfold trace_of, world_of, result_of. cbn [fst snd].
  split; [|split; [|split]].
  - intros Hex. rewrite bool_decide_eq_true_2 by exact Hex. reflexivity.
  - intros Hno. rewrite bool_decide_eq_false_2; [reflexivity|].
    rewrite Hno. intros [x Hx]. discriminate Hx.
  - reflexivity.
  - apply (live_set_fs _ w rt Hrt).
Qed.

Lemma writeFile_unlinks_existing_witness :
  runtimeRef initialised = Some {| fs := ∅ |}
  /\ trace_of (writeFile "/game/save.dat" [x01; x02; x03] initialised)
     = [AnalyzePath "/game/save.dat";
        CreateFile "/game/save.dat" [x01; x02; x03]].
Proof.
  split; [reflexivity|].
  apply (proj1 (proj2 (writeFile_unlinks_existing
                         "/game/save.dat" [x01; x02; x03]
                         initialised {| fs := ∅ |} eq_refl))).
  apply lookup_empty.
Defined.

Lemma writeFile_getFile path data w rt :
  runtimeRef w = Some rt ->
  (writeFile path data ;; getFile path) w
  = (trace_of (writeFile path data w) ++ [SyncFs; OpenDB; Get path],
     synced (set_fs (<[path := data]> (fs rt)) w),
     ok data).
Proof.
  intros Hrt. unfold bind at 1.
  rewrite (writeFile_ready path data w rt Hrt). unfold ok, trace_of. cbn [fst].
  assert (Hrt' : runtimeRef (set_fs (<[path := data]> (fs rt)) w)
                 = Some {| fs := <[path := data]> (fs rt) |}).
  { destruct w as [d r i]. simpl in Hrt. subst r. reflexivity. }
  rewrite (getFile_ready path _ _ Hrt').
  rewrite persistent_synced, (live_set_fs _ w rt Hrt), lookup_insert_eq.
  reflexivity.
Qed.

(** C6. For every path and every non-empty byte sequence, whatever the
    live file system held before (a file at [path] or none), [writeFile]
    followed by [getFile] of the same path returns exactly these bytes. *)
Theorem writeFile_getFile_roundtrip path data w rt :
  runtimeRef w = Some rt ->
  data <> [] ->
  result_of ((writeFile path data ;; getFile path) w) = ok data
  /\ trace_of ((writeFile path data ;; getFile path) w)
     = trace_of (writeFile path data w) ++ [SyncFs; OpenDB; Get path].
Proof.
  intros Hrt _. rewrite (writeFile_getFile path data w rt Hrt).
  split; reflexivity.
Qed.

Lemma writeFile_getFile_roundtrip_witness :
  runtimeRef initialised = Some {| fs := ∅ |}
  /\ [x01; x02; x03] <> []
  /\ result_of ((writeFile "/game/save.dat" [x01; x02; x03] ;;
                 getFile "/game/save.dat") initialised)
     = ok [x01; x02; x03].
Proof.
  split; [reflexivity|]. split; [discriminate|].
  apply (proj1 (writeFile_getFile_roundtrip
                  "/game/save.dat" [x01; x02; x03]
                  initialised {| fs := ∅ |} eq_refl
                  ltac:(discriminate))).
Defined.

(** C8. With the runtime there, [getFile] of a path that has no record in
    the persistent store once the forced sync is done fails: reading
    [contents] of the missing record raises a [TypeError]. So does
    [getFile("/missing")] on a store without that record. *)
Theorem getFile_missing path w rt :
  runtimeRef w = Some rt ->
  persistent (synced w) !! path = None ->
  getFile path w
  = ([SyncFs; OpenDB; Get path], synced w, throw (TypeError idb_file)).
Proof.
  intros Hrt Hno. rewrite (getFile_ready path w rt Hrt), Hno. reflexivity.
Qed.

Lemma getFile_missing_witness :
  runtimeRef initialised = Some {| fs := ∅ |}
  /\ persistent (synced initialised) !! "/missing" = None
  /\ getFile "/missing" initialised
     = ([SyncFs; OpenDB; Get "/missing"], synced initialised,
        throw (TypeError idb_file)).
Proof.
  assert (Hno : persistent (synced initialised) !! "/missing" = None).
  { rewrite persistent_synced. reflexivity. }
  split; [reflexivity|]. split; [exact Hno|].
  exact (getFile_missing "/missing" initialised {| fs := ∅ |} eq_refl Hno).
Defined.

(** ** Cropping in the screenshot tool *)

Section Crop.
Import ScreenshotTool.
Local Open Scope Z_scope.

Lemma slice_length_le bytes a b :
  a <= b ->
  (length (slice bytes a b) <= Z.to_nat (b - a))%nat.
Proof.
  intros Hab. unfold slice. rewrite length_take, length_drop.
  destruct (Z.ltb_spec a 0); destruct (Z.ltb_spec b 0); lia.
Qed.

Lemma slice_inside bytes a b :
  0 <= a -> a <= b -> b <= Z.of_nat (length bytes) ->
  slice bytes a b = take (Z.to_nat (b - a)) (drop (Z.to_nat a) bytes).
Proof.
  intros Ha Hab Hb. unfold slice.
  destruct (Z.ltb_spec a 0); [lia|]. destruct (Z.ltb_spec b 0); [lia|].
  rewrite (Z.min_l a), (Z.min_l b) by lia. reflexivity.
Qed.

Lemma flat_map_length_le {A B} (f : A -> list B) (l : list A) m :
  (forall x, In x l -> (length (f x) <= m)%nat) ->
  (length (flat_map f l) <= length l * m)%nat.
Proof.
  induction l as [|x l IH]; intros H; [simpl; lia|].
  cbn [flat_map length]. rewrite length_app.
  specialize (H x (or_introl eq_refl)) as Hx.
  specialize (IH (fun y Hy => H y (or_intror Hy))). lia.
Qed.

Lemma flat_map_length_eq {A B} (f : A -> list B) (l : list A) m :
  (forall x, In x l -> length (f x) = m) ->
  length (flat_map f l) = (length l * m)%nat.
Proof.
  induction l as [|x l IH]; intros H; [reflexivity|].
  cbn [flat_map length]. rewrite length_app.
  rewrite (H x (or_introl eq_refl)), (IH (fun y Hy => H y (or_intror Hy))).
  lia.
Qed.

Lemma rows_length sy sh : length (rows sy sh) = Z.to_nat sh.
Proof. unfold rows. rewrite length_map, length_seq. reflexivity. Qed.

Lemma rows_In sy sh row : In row (rows sy sh) <-> sy <= row < sy + sh.
Proof.
  unfold rows. rewrite in_map_iff. split.
  - intros (i & <- & Hi). apply in_seq in Hi. lia.
  - intros H. exists (Z.to_nat (row - sy)). split; [lia|].
    apply in_seq. lia.
Qed.

Lemma newData_length_le image sx sy sw sh :
  0 <= sw ->
  (length (newData image sx sy sw sh) <= Z.to_nat sh * Z.to_nat (4 * sw))%nat.
Proof.
  intros Hsw. unfold newData. rewrite <- (rows_length sy sh).
  apply flat_map_length_le. intros row _. unfold cropRow.
  etransitivity; [apply slice_length_le|]; lia.
Qed.

Lemma accepted_true bytes sw sh :
  accepted bytes sw sh = true <->
  0 < Z.of_nat (length bytes)
  /\ 4 * sw * sh <> 0
  /\ Z.rem (Z.of_nat (length bytes)) (4 * sw * sh) = 0.
Proof.
  unfold accepted. rewrite andb_true_iff, Z.ltb_lt.
  destruct (Z.eqb_spec (4 * sw * sh) 0) as [E|E].
  - split; [intros [_ H]; discriminate H | intros (_ & H & _); contradiction].
  - rewrite Z.eqb_eq. tauto.
Qed.

Lemma accepted_exact_size image sx sy sw sh :
  0 <= sw ->
  accepted (newData image sx sy sw sh) sw sh = true ->
  0 < sw /\ 0 < sh
  /\ Z.of_nat (length (newData image sx sy sw sh)) = 4 * sw * sh.
Proof.
  intros Hsw Hacc. apply accepted_true in Hacc as (Hpos & Hne & Hrem).
  pose proof (newData_length_le image sx sy sw sh Hsw) as Hle.
  set (len := Z.of_nat (length (newData image sx sy sw sh))) in *.
  assert (Hsh : 0 < sh) by nia. assert (Hsw' : 0 < sw) by nia.
  assert (Hbound : len <= 4 * sw * sh) by nia.
  split; [exact Hsw'|]. split; [exact Hsh|].
  destruct (Z.eq_dec len (4 * sw * sh)) as [E|E]; [exact E|].
  rewrite Z.rem_small in Hrem by lia. lia.
Qed.

(** X1. Once the width is not negative, the guard of the effect lets
    through only an array of exactly [4 * sw * sh] bytes, with both sizes
    positive: what [new ImageData(array, sw, sh)] requires. *)
Theorem accepted_crop_has_exact_size image sx sy sw sh :
  0 <= sw ->
  accepted (newData image sx sy sw sh) sw sh = true ->
  0 < sw /\ 0 < sh
  /\ Z.of_nat (length (newData image sx sy sw sh)) = 4 * sw * sh.
Proof. exact (accepted_exact_size image sx sy sw sh). Qed.

Lemma rows_snoc sy sh :
  0 < sh -> rows sy sh = rows sy (sh - 1) ++ [sy + sh - 1].
Proof.
  intros Hsh. unfold rows.
  replace (Z.to_nat sh) with (S (Z.to_nat (sh - 1))) by lia.
  rewrite seq_S, map_app. cbn [map]. do 2 f_equal. lia.
Qed.

Lemma rows_lookup sy sh r :
  0 <= r < sh -> rows sy sh !! Z.to_nat r = Some (sy + r).
Proof.
  intros Hr. unfold rows. rewrite list_lookup_fmap.
  rewrite lookup_seq_lt by lia. cbn. f_equal. lia.
Qed.

Lemma cropRow_inside image sx sw row :
  0 <= width image * row + sx -> 0 <= sw ->
  4 * (width image * row + sx + sw) <= Z.of_nat (length (data image)) ->
  cropRow image sx sw row
  = take (Z.to_nat (4 * sw))
         (drop (Z.to_nat (4 * (width image * row + sx))) (data image)).
Proof.
  intros Hleft Hsw Hfit. unfold cropRow. cbv zeta.
  rewrite slice_inside by lia. f_equal; [lia|]. f_equal. lia.
Qed.

Lemma cropRow_inside_length image sx sw row :
  0 <= width image * row + sx -> 0 <= sw ->
  4 * (width image * row + sx + sw) <= Z.of_nat (length (data image)) ->
  length (cropRow image sx sw row) = Z.to_nat (4 * sw).
Proof.
  intros Hleft Hsw Hfit. rewrite cropRow_inside by assumption.
  rewrite length_take, length_drop. lia.
Qed.

Lemma fits_row image sx sy sw sh row :
  0 <= width image -> 0 <= sx -> 0 <= sy ->
  fits image sx sy sw sh ->
  sy <= row < sy + sh ->
  0 <= width image * row + sx
  /\ 4 * (width image * row + sx + sw) <= Z.of_nat (length (data image)).
Proof. unfold fits. intros Hw Hsx Hsy Hfit Hrow. nia. Qed.

Lemma newData_fits_length image sx sy sw sh :
  0 <= width image -> 0 <= sx -> 0 <= sy -> 0 <= sw ->
  fits image sx sy sw sh ->
  length (newData image sx sy sw sh) = (Z.to_nat sh * Z.to_nat (4 * sw))%nat.
Proof.
  intros Hw Hsx Hsy Hsw Hfit. unfold newData.
  rewrite <- (rows_length sy sh). apply flat_map_length_eq.
  intros row Hrow. apply rows_In in Hrow.
  destruct (fits_row image sx sy sw sh row Hw Hsx Hsy Hfit Hrow).
  apply cropRow_inside_length; assumption.
Qed.

Lemma flat_map_lookup_uniform {A B} (f : A -> list B) (l : list A) m :
  (forall y, In y l -> length (f y) = m) ->
  forall i j x, l !! i = Some x -> (j < m)%nat ->
  flat_map f l !! (i * m + j)%nat = f x !! j.
Proof.
  induction l as [|y l IH]; intros Hlen i j x Hi Hj; [discriminate Hi|].
  cbn [flat_map]. pose proof (Hlen y (or_introl eq_refl)) as Hy.
  destruct i as [|i].
  - injection Hi as ->. apply lookup_app_l. lia.
  - rewrite lookup_app_r by lia.
    rewrite <- (IH (fun z Hz => Hlen z (or_intror Hz)) i j x Hi Hj).
    f_equal. lia.
Qed.

(** X2. When the selection starts inside the frame and its last row ends
    inside the data, byte [k] of the pixel in row [r], column [c] of the
    crop is byte [k] of the pixel at linear position
    [width * (sy + r) + sx + c] of the capture. *)
Theorem newData_pixel image sx sy sw sh r c k :
  0 <= width image -> 0 <= sx -> 0 <= sy -> 0 < sw -> 0 < sh ->
  fits image sx sy sw sh ->
  0 <= r < sh -> 0 <= c < sw -> 0 <= k < 4 ->
  newData image sx sy sw sh !! Z.to_nat (4 * (r * sw + c) + k)
  = data image !! Z.to_nat (4 * (width image * (sy + r) + sx + c) + k).
Proof.
  intros Hw Hsx Hsy Hsw Hsh Hfit Hr Hc Hk. unfold newData.
  replace (Z.to_nat (4 * (r * sw + c) + k))
    with (Z.to_nat r * Z.to_nat (4 * sw) + Z.to_nat (4 * c + k))%nat by nia.
  assert (Hlen : forall row, In row (rows sy sh) ->
                 length (cropRow image sx sw row) = Z.to_nat (4 * sw)).
  { intros row Hrow. apply rows_In in Hrow.
    destruct (fits_row image sx sy sw sh row Hw Hsx Hsy Hfit Hrow).
    apply cropRow_inside_length; lia. }
  rewrite (flat_map_lookup_uniform _ _ _ Hlen (Z.to_nat r)
             (Z.to_nat (4 * c + k)) (sy + r) (rows_lookup sy sh r Hr))
    by lia.
  destruct (fits_row image sx sy sw sh (sy + r) Hw Hsx Hsy Hfit ltac:(lia)).
  rewrite cropRow_inside by lia.
  rewrite lookup_take_lt by lia. rewrite lookup_drop. f_equal. lia.
Qed.

Lemma newData_snoc image sx sy sw sh :
  0 < sh ->
  newData image sx sy sw sh
  = newData image sx sy sw (sh - 1) ++ cropRow image sx sw (sy + sh - 1).
Proof.
  intros Hsh. unfold newData. rewrite (rows_snoc sy sh Hsh), flat_map_app.
  cbn [flat_map]. rewrite app_nil_r. reflexivity.
Qed.

Lemma cropRow_overflow_length image sx sw row :
  0 <= width image * row + sx -> 0 < sw ->
  Z.of_nat (length (data image)) < 4 * (width image * row + sx + sw) ->
  (length (cropRow image sx sw row) < Z.to_nat (4 * sw))%nat.
Proof.
  intros Hleft Hsw Hover. unfold cropRow, slice. cbv zeta.
  rewrite length_take, length_drop.
  destruct (Z.ltb_spec ((width image * row + sx) * 4) 0); [lia|].
  destruct (Z.ltb_spec ((width image * row + sx + sw) * 4) 0); lia.
Qed.

(** X3. For a selection of positive size that starts inside the frame, the
    guard accepts the crop exactly when the last selected row ends inside
    the data; it does not ask that the selection stays left of the
    frame's right edge. *)
Theorem accepted_iff_fits image sx sy sw sh :
  0 <= width image -> 0 <= sx -> 0 <= sy -> 0 < sw -> 0 < sh ->
  accepted (newData image sx sy sw sh) sw sh = true
  <-> fits image sx sy sw sh.
Proof.
  intros Hw Hsx Hsy Hsw Hsh. split.
  - intros Hacc.
    destruct (accepted_exact_size image sx sy sw sh ltac:(lia) Hacc)
      as (_ & _ & Hlen).
    unfold fits.
    destruct (Z.le_gt_cases (4 * (width image * (sy + sh - 1) + sx + sw))
                (Z.of_nat (length (data image)))) as [Hfit|Hover];
      [exact Hfit|exfalso].
    rewrite (newData_snoc image sx sy sw sh Hsh), length_app in Hlen.
    pose proof (newData_length_le image sx sy sw (sh - 1) ltac:(lia)) as H1.
    pose proof (cropRow_overflow_length image sx sw (sy + sh - 1)
                  ltac:(nia) Hsw Hover) as H2.
    nia.
  - intros Hfit. apply accepted_true.
    pose proof (newData_fits_length image sx sy sw sh Hw Hsx Hsy
                  ltac:(lia) Hfit) as Hlen.
    assert (E : Z.of_nat (length (newData image sx sy sw sh)) = 4 * sw * sh)
      by nia.
    rewrite E. split; [nia|]. split; [nia|]. apply Z.rem_same. nia.
Qed.

Lemma flat_map_chunks {B} (l : list B) m n :
  flat_map (fun i => take m (drop (i * m) l)) (seq 0 n) = take (n * m) l.
Proof.
  induction n as [|n IH]; [reflexivity|].
  rewrite seq_S, flat_map_app, IH. cbn [flat_map]. rewrite app_nil_r.
  rewrite take_take_drop. f_equal. lia.
Qed.

Lemma flat_map_agree {A B} (f g : A -> list B) l :
  (forall x, In x l -> f x = g x) -> flat_map f l = flat_map g l.
Proof.
  induction l as [|x l IH]; intros H; [reflexivity|].
  cbn [flat_map]. rewrite (H x (or_introl eq_refl)).
  rewrite (IH (fun y Hy => H y (or_intror Hy))). reflexivity.
Qed.

Lemma newData_whole image :
  0 <= width image -> 0 <= height image ->
  Z.of_nat (length (data image)) = 4 * width image * height image ->
  newData image 0 0 (width image) (height image) = data image.
Proof.
  intros Hw Hh Hlen. unfold newData, rows.
  rewrite flat_map_concat_map, map_map, <- flat_map_concat_map.
  rewrite (flat_map_agree _
             (fun i => take (Z.to_nat (4 * width image))
                         (drop (i * Z.to_nat (4 * width image)) (data image)))).
  - rewrite flat_map_chunks. apply take_ge. nia.
  - intros i Hi. apply in_seq in Hi.
    rewrite cropRow_inside by nia. do 2 f_equal. nia.
Qed.

(** X4. After a click on Capture the preview shows the whole captured
    frame: whatever the editors held before, the effect draws the
    640 x 480 capture unchanged. *)
Theorem capture_shows_whole_frame captured st :
  width captured = 640 -> height captured = 480 ->
  Z.of_nat (length (data captured)) = 4 * 640 * 480 ->
  cropEffect true (onClickScreenshot captured st)
  = Drawn (data captured) 640 480.
Proof.
  intros Hw Hh Hlen. unfold cropEffect, onClickScreenshot, resetEditors.
  cbn [screenshot ScreenshotTool.sx ScreenshotTool.sy
       ScreenshotTool.sw ScreenshotTool.sh].
  assert (Hnew : newData captured 0 0 640 480 = data captured).
  { rewrite <- Hw at 1. rewrite <- Hh at 1.
    apply newData_whole; lia. }
  rewrite Hnew.
  assert (Hacc : accepted (data captured) 640 480 = true).
  { apply accepted_true. rewrite Hlen. repeat split; lia. }
  rewrite Hacc. reflexivity.
Qed.

(** X5. A negative width is not stopped by the guard: with the selection
    at the origin, one row high and [c] pixels wide to the left, the loop
    collects all the data but its last [c] pixels, and the guard accepts
    it whenever the data are a multiple of [c] pixels, at least two of
    them; the crop then does not have [4 * sw * sh] bytes. *)
Theorem negative_width_accepted image c q :
  0 < c -> 2 <= q ->
  Z.of_nat (length (data image)) = 4 * c * q ->
  newData image 0 0 (- c) 1
  = take (Z.to_nat (4 * c * (q - 1))) (data image)
  /\ accepted (newData image 0 0 (- c) 1) (- c) 1 = true
  /\ Z.of_nat (length (newData image 0 0 (- c) 1)) <> 4 * (- c) * 1.
Proof.
  intros Hc Hq Hlen.
  assert (Hnew : newData image 0 0 (- c) 1
                 = take (Z.to_nat (4 * c * (q - 1))) (data image)).
  { unfold newData. replace (rows 0 1) with [0] by reflexivity.
    cbn [flat_map]. rewrite app_nil_r. unfold cropRow, slice. cbv zeta.
    destruct (Z.ltb_spec ((width image * 0 + 0) * 4) 0); [lia|].
    destruct (Z.ltb_spec ((width image * 0 + 0 + - c) * 4) 0); [|lia].
    replace (Z.to_nat (Z.min _ _)) with 0%nat by lia.
    rewrite drop_0. f_equal. lia. }
  assert (Hl : Z.of_nat (length (newData image 0 0 (- c) 1))
               = 4 * c * (q - 1)).
  { rewrite Hnew, length_take. nia. }
  split; [exact Hnew|]. split.
  - apply accepted_true. rewrite Hl. split; [nia|]. split; [lia|].
    replace (4 * c * (q - 1)) with ((1 - q) * (4 * - c * 1)) by lia.
    apply Z.rem_mul. lia.
  - rewrite Hl. nia.
Qed.

Lemma accepted_crop_has_exact_size_witness :
  0 <= 1
  /\ accepted (newData tiny_frame 0 0 1 2) 1 2 = true
  /\ Z.of_nat (length (newData tiny_frame 0 0 1 2)) = 4 * 1 * 2.
Proof.
  split; [lia|]. split; [reflexivity|].
  exact (proj2 (proj2 (accepted_crop_has_exact_size tiny_frame 0 0 1 2
                         ltac:(lia) eq_refl))).
Defined.

Lemma newData_pixel_witness :
  fits tiny_frame 1 0 1 2
  /\ newData tiny_frame 1 0 1 2 !! Z.to_nat (4 * (1 * 1 + 0) + 2)
     = data tiny_frame !! Z.to_nat (4 * (2 * (0 + 1) + 1 + 0) + 2)
  /\ newData tiny_frame 1 0 1 2 !! 6%nat = Some x32.
Proof.
  assert (Hfit : fits tiny_frame 1 0 1 2) by (unfold fits; cbn; lia).
  split; [exact Hfit|]. split; [|reflexivity].
  apply (newData_pixel tiny_frame 1 0 1 2 1 0 2); try exact Hfit; cbn; lia.
Defined.

Lemma accepted_iff_fits_witness :
  fits tiny_frame 1 0 2 1
  /\ accepted (newData tiny_frame 1 0 2 1) 2 1 = true
  /\ newData tiny_frame 1 0 2 1
     = [x10; x11; x12; x13; x20; x21; x22; x23].
Proof.
  assert (Hfit : fits tiny_frame 1 0 2 1) by (unfold fits; cbn; lia).
  split; [exact Hfit|]. split; [|reflexivity].
  apply (proj2 (accepted_iff_fits tiny_frame 1 0 2 1
                  ltac:(cbn; lia) ltac:(lia) ltac:(lia) ltac:(lia) ltac:(lia))).
  exact Hfit.
Defined.

Lemma blank_frame_length :
  Z.of_nat (length (data blank_frame)) = 4 * 640 * 480.
Proof.
  unfold blank_frame. cbn [data]. rewrite repeat_length.
  apply Z2Nat.id. discriminate.
Qed.

Lemma capture_shows_whole_frame_witness :
  width blank_frame = 640
  /\ height blank_frame = 480
  /\ cropEffect true
       (onClickScreenshot blank_frame
          {| screenshot := None; sx := 10; sy := 20; sw := 30; sh := 40 |})
     = Drawn (data blank_frame) 640 480.
Proof.
  split; [reflexivity|]. split; [reflexivity|].
  exact (capture_shows_whole_frame blank_frame
           {| screenshot := None; sx := 10; sy := 20; sw := 30; sh := 40 |}
           eq_refl eq_refl blank_frame_length).
Defined.

Lemma negative_width_accepted_witness :
  Z.of_nat (length (data tiny_frame)) = 4 * 1 * 4
  /\ accepted (newData tiny_frame 0 0 (- 1) 1) (- 1) 1 = true
  /\ length (newData tiny_frame 0 0 (- 1) 1) = 12%nat.
Proof.
  split; [reflexivity|]. split; [|reflexivity].
  exact (proj1 (proj2 (negative_width_accepted tiny_frame 1 4
                         ltac:(lia) ltac:(lia) eq_refl))).
Defined.

End Crop.

(** ** More on stroke translation *)

Lemma invalid_stroke_literal rest :
  invalid_stroke (String ":" rest) = true <->
  Exists stopping_char (chars rest).
Proof.
  unfold invalid_stroke. rewrite existsb_exists, Exists_exists.
  split; intros (c & Hin & Hc); exists c;
    (split; [apply list_elem_of_In, Hin|]).
  - apply negb_true_iff in Hc. rewrite accepted_char_spec in Hc.
    apply orb_false_elim in Hc as [Ha Hs]. split; [exact Ha|].
    apply N.eqb_neq, Hs.
  - destruct Hc as [Ha Hs]. apply negb_true_iff.
    rewrite accepted_char_spec, Ha. apply N.eqb_neq in Hs. rewrite Hs.
    reflexivity.
Qed.

Lemma invalid_stroke_named command :
  (forall rest, command <> String ":" rest) ->
  invalid_stroke command = true <->
  ~ In (toLowerCase command) accepted_names.
Proof.
  intros Hne.
  assert (Hinv : invalid_stroke command
                 = negb (truthy (manualMap (toLowerCase command)))).
  { destruct command as [|c rest]; [reflexivity|].
    each_char c; try reflexivity. exfalso. apply (Hne rest). reflexivity. }
  rewrite Hinv, negb_true_iff, <- not_true_iff_false.
  rewrite (manualMap_truthy _ (toLowerCase_no_capital command)).
  reflexivity.
Qed.

Lemma invalid_stroke_rejected command :
  invalid_stroke command = true <-> rejected_stroke command.
Proof.
  unfold rejected_stroke. split.
  - intros H. destruct command as [|c rest].
    + right. split; [discriminate|].
      apply (invalid_stroke_named ""); [discriminate|exact H].
    + destruct (Ascii.eqb_spec c ":") as [->|Hc].
      * left. exists rest. split; [reflexivity|].
        apply invalid_stroke_literal, H.
      * assert (Hne : forall r, String c rest <> String ":" r) by congruence.
        right. split; [exact Hne|].
        apply (invalid_stroke_named _ Hne), H.
  - intros [(rest & -> & H) | (Hne & H)].
    + apply invalid_stroke_literal, H.
    + apply (invalid_stroke_named _ Hne), H.
Qed.

Lemma toKeyCodes_valid strokes :
  existsb invalid_stroke strokes = false ->
  exists ks, toKeyCodes strokes = ok ks.
Proof.
  unfold toKeyCodes. induction strokes as [|c strokes IH]; cbn [existsb flatMapR].
  - intros _. eexists. reflexivity.
  - intros H. apply orb_false_elim in H as [Hc Hs].
    destruct (strokeKeyCodes_valid c Hc) as [ks ->].
    destruct (IH Hs) as [ks' ->]. eexists. reflexivity.
Qed.

(** X6. [toKeyCodes] throws exactly when some token is a literal
    directive holding a character that is neither an ASCII letter or
    digit nor the sharp s, or is any other token whose lower-cased
    spelling is none of left, up, right, down, alt, enter, esc,
    constructor, __proto__. *)
Theorem toKeyCodes_throws_exactly strokes :
  (exists e, toKeyCodes strokes = throw e)
  <-> Exists rejected_stroke strokes.
Proof.
  rewrite Exists_exists.
  assert (Hex : existsb invalid_stroke strokes = true
                <-> exists c, c ∈ strokes /\ rejected_stroke c).
  { rewrite existsb_exists. split; intros (c & Hin & Hc); exists c.
    - split; [apply list_elem_of_In, Hin|apply invalid_stroke_rejected, Hc].
    - split; [apply list_elem_of_In, Hin|apply invalid_stroke_rejected, Hc]. }
  rewrite <- Hex. split.
  - intros [e He]. destruct (existsb invalid_stroke strokes) eqn:E;
      [reflexivity|].
    destruct (toKeyCodes_valid strokes E) as [ks Hks].
    rewrite Hks in He. discriminate He.
  - intros H. apply toKeyCodes_throws_iff in H as [m Hm]. eauto.
Qed.

Lemma chars_append pre post : chars (pre +:+ post) = chars pre ++ chars post.
Proof.
  induction pre as [|c pre IH]; [reflexivity|].
  change (c :: chars (pre +:+ post) = c :: (chars pre ++ chars post)).
  f_equal. exact IH.
Qed.

Lemma mapR_literal_first_rejected command pre c post :
  forallb accepted_char pre = true ->
  accepted_char c = false ->
  mapR (literalKeyCode command) (pre ++ c :: post)
  = throw (nonAlphanumeric command c).
Proof.
  intros Hpre Hc. induction pre as [|p pre IH]; cbn [app mapR].
  - rewrite (literalKeyCode_rejected command c Hc). reflexivity.
  - cbn [forallb] in Hpre. apply andb_prop in Hpre as [Hp Hpre].
    destruct (literalKeyCode_accepted command p Hp) as [n ->].
    cbn [bindR]. rewrite (IH Hpre). reflexivity.
Qed.

(** X7. The error of a translation is the error of the first invalid
    token: the tokens after it are never looked at, and the valid ones
    before it leave no trace in the outcome. *)
Theorem toKeyCodes_first_error good bad rest e :
  existsb invalid_stroke good = false ->
  strokeKeyCodes bad = throw e ->
  toKeyCodes (good ++ bad :: rest) = throw e.
Proof.
  intros Hgood Hbad. unfold toKeyCodes.
  induction good as [|g good IH]; cbn [app flatMapR].
  - rewrite Hbad. reflexivity.
  - cbn [existsb] in Hgood. apply orb_false_elim in Hgood as [Hg Hgood].
    destruct (strokeKeyCodes_valid g Hg) as [ks ->]. cbn [bindR].
    rewrite (IH Hgood). reflexivity.
Qed.

Lemma toKeyCodes_first_error_witness :
  existsb invalid_stroke [":ab"; "up"] = false
  /\ strokeKeyCodes "jump" = throw (cannotConvert "jump")
  /\ toKeyCodes ([":ab"; "up"] ++ "jump" :: [":?"; "enter"])
     = throw (Error "Can't convert jump into keycode.").
Proof.
  split; [reflexivity|]. split; [reflexivity|].
  exact (toKeyCodes_first_error [":ab"; "up"] "jump" [":?"; "enter"]
           (cannotConvert "jump") eq_refl eq_refl).
Defined.

(** X8. The message of the error names the culprit. For a literal
    directive it is the first character that fails the test, together
    with the whole token; for any other token it is the token as it was
    written, not its lower-cased form. *)
Theorem strokeKeyCodes_error_message :
  (forall pre c post,
      forallb accepted_char (chars pre) = true ->
      accepted_char c = false ->
      strokeKeyCodes (String ":" (pre +:+ String c post))
      = throw (Error ("Got non-alphanumeric char " +:+ String c ""
                      +:+ " in command string "
                      +:+ String ":" (pre +:+ String c post) +:+ ".")))
  /\ (forall command,
      (forall rest, command <> String ":" rest) ->
      ~ In (toLowerCase command) accepted_names ->
      strokeKeyCodes command
      = throw (Error ("Can't convert " +:+ command +:+ " into keycode."))).
Proof.
  split.
  - intros pre c post Hpre Hc. unfold strokeKeyCodes.
    rewrite chars_append. cbn [chars].
    apply mapR_literal_first_rejected; assumption.
  - intros command Hne Hnot.
    rewrite (strokeKeyCodes_named command Hne).
    apply (invalid_stroke_named command Hne) in Hnot.
    assert (Hinv : invalid_stroke command
                   = negb (truthy (manualMap (toLowerCase command)))).
    { destruct command as [|c rest]; [reflexivity|].
      each_char c; try reflexivity. exfalso. apply (Hne rest). reflexivity. }
    rewrite Hinv in Hnot. apply negb_true_iff in Hnot. rewrite Hnot.
    reflexivity.
Qed.

Lemma strokeKeyCodes_error_message_witness :
  strokeKeyCodes ":a1-b!"
  = throw (Error "Got non-alphanumeric char - in command string :a1-b!.")
  /\ strokeKeyCodes "Space"
     = throw (Error "Can't convert Space into keycode.").
Proof.
  split.
  - exact (proj1 strokeKeyCodes_error_message "a1" "-"%char "b!"
             eq_refl eq_refl).
  - apply (proj2 strokeKeyCodes_error_message "Space").
    + discriminate.
    + cbn. intros H. repeat (destruct H as [H|H]; [discriminate H|]).
      exact H.
Defined.

Lemma mapR_length {A B} (f : A -> result B) xs ys :
  mapR f xs = ok ys -> length ys = length xs.
Proof.
  revert ys. induction xs as [|x xs IH]; cbn [mapR]; intros ys H.
  - injection H as <-. reflexivity.
  - destruct (f x) as [e|y]; [discriminate H|]. cbn [bindR] in H.
    destruct (mapR f xs) as [e|ys']; [discriminate H|]. cbn [bindR] in H.
    injection H as <-. cbn. rewrite (IH ys' eq_refl). reflexivity.
Qed.

Lemma strokeKeyCodes_length command ks :
  strokeKeyCodes command = ok ks -> length ks = stroke_size command.
Proof.
  destruct command as [|c rest]; [discriminate|].
  destruct (Ascii.eqb_spec c ":") as [->|Hc].
  - unfold strokeKeyCodes, stroke_size. intros H.
    rewrite (mapR_length _ _ _ H). apply chars_length.
  - assert (Hne : forall r, String c rest <> String ":" r) by congruence.
    rewrite (strokeKeyCodes_named _ Hne).
    assert (Hsize : stroke_size (String c rest) = 1%nat).
    { each_char c; try reflexivity. congruence. }
    rewrite Hsize.
    destruct (truthy _); [|discriminate]. intros H. injection H as <-.
    reflexivity.
Qed.

Lemma toKeyCodes_length_aux strokes ks :
  toKeyCodes strokes = ok ks ->
  length ks = list_sum (map stroke_size strokes).
Proof.
  unfold toKeyCodes. revert ks.
  induction strokes as [|c strokes IH]; cbn [flatMapR map list_sum]; intros ks H.
  - injection H as <-. reflexivity.
  - destruct (strokeKeyCodes c) as [e|kc] eqn:Hc; [discriminate H|].
    cbn [bindR] in H.
    destruct (flatMapR strokeKeyCodes strokes) as [e|kr]; [discriminate H|].
    cbn [bindR] in H. injection H as <-.
    rewrite length_app, (strokeKeyCodes_length c kc Hc), (IH kr eq_refl).
    reflexivity.
Qed.

(** X9. A translation that succeeds puts out one key code per character
    after the colon of each literal directive and one per name: the
    number of key codes is the sum of the sizes of the tokens. *)
Theorem toKeyCodes_length strokes ks :
  toKeyCodes strokes = ok ks ->
  length ks = list_sum (map stroke_size strokes).
Proof. exact (toKeyCodes_length_aux strokes ks). Qed.

Lemma toKeyCodes_length_witness :
  toKeyCodes [":dir"; "enter"; ":"; "ESC"]
  = ok [VNum 68; VNum 73; VNum 82; VNum 13; VNum 27]
  /\ length [VNum 68; VNum 73; VNum 82; VNum 13; VNum 27]
     = list_sum (map stroke_size [":dir"; "enter"; ":"; "ESC"]).
Proof.
  split; [reflexivity|].
  exact (toKeyCodes_length [":dir"; "enter"; ":"; "ESC"] _ eq_refl).
Defined.

Lemma literalKeyCode_value command c v :
  literalKeyCode command c = ok v -> key_code_value v.
Proof.
  unfold literalKeyCode.
  destruct (charCodeAt0 (toUpperCase c)) as [n|]; [|discriminate].
  destruct ((48 <=? n) && (n <=? 57)) eqn:H.
  - intros E. injection E as <-. left. exists n. split; [reflexivity|].
    apply andb_prop in H as [H1 H2]. apply N.leb_le in H1, H2. lia.
  - clear H. destruct ((65 <=? n) && (n <=? 90)) eqn:H; [|discriminate].
    intros E. injection E as <-. left. exists n. split; [reflexivity|].
    apply andb_prop in H as [H1 H2]. apply N.leb_le in H1, H2. lia.
Qed.

Lemma mapR_Forall {A B} (f : A -> result B) (P : B -> Prop) xs ys :
  (forall x y, f x = ok y -> P y) ->
  mapR f xs = ok ys -> Forall P ys.
Proof.
  intros Hf. revert ys. induction xs as [|x xs IH]; cbn [mapR]; intros ys H.
  - injection H as <-. constructor.
  - destruct (f x) as [e|y] eqn:Hx; [discriminate H|]. cbn [bindR] in H.
    destruct (mapR f xs) as [e|ys']; [discriminate H|]. cbn [bindR] in H.
    injection H as <-. constructor; [exact (Hf x y Hx)|exact (IH ys' eq_refl)].
Qed.

Lemma manualMap_value key :
  In key accepted_names -> key_code_value (manualMap key).
Proof.
  unfold accepted_names. cbn [In]. intros H.
  repeat (destruct H as [<-|H];
          [first [ left; eexists; split; [reflexivity|];
                   right; right; cbn [In]; tauto
                 | right; left; reflexivity
                 | right; right; reflexivity ]|]).
  destruct H.
Qed.

Lemma strokeKeyCodes_values command ks :
  strokeKeyCodes command = ok ks -> Forall key_code_value ks.
Proof.
  destruct command as [|c rest]; [discriminate|].
  destruct (Ascii.eqb_spec c ":") as [->|Hc].
  - unfold strokeKeyCodes. apply mapR_Forall, literalKeyCode_value.
  - assert (Hne : forall r, String c rest <> String ":" r) by congruence.
    rewrite (strokeKeyCodes_named _ Hne).
    destruct (truthy (manualMap (toLowerCase (String c rest)))) eqn:Ht;
      [|discriminate].
    intros H. injection H as <-. constructor; [|constructor].
    apply manualMap_value.
    exact (proj1 (manualMap_truthy _ (toLowerCase_no_capital _)) Ht).
Qed.

(** X10. Whatever the strokes, the key codes of a successful translation
    are digits' and capital letters' codes (48-57, 65-90), codes of the
    table (37, 38, 39, 40, 18, 13, 27) or one of the two inherited
    objects; never [undefined] and never 0. *)
Theorem toKeyCodes_values strokes ks :
  toKeyCodes strokes = ok ks -> Forall key_code_value ks.
Proof.
  unfold toKeyCodes. revert ks.
  induction strokes as [|c strokes IH]; cbn [flatMapR]; intros ks H.
  - injection H as <-. constructor.
  - destruct (strokeKeyCodes c) as [e|kc] eqn:Hc; [discriminate H|].
    cbn [bindR] in H.
    destruct (flatMapR strokeKeyCodes strokes) as [e|kr]; [discriminate H|].
    cbn [bindR] in H. injection H as <-.
    apply Forall_app. split;
      [exact (strokeKeyCodes_values c kc Hc)|exact (IH kr eq_refl)].
Qed.

Lemma toKeyCodes_values_witness :
  toKeyCodes [":z9"; "Alt"] = ok [VNum 90; VNum 57; VNum 18]
  /\ Forall key_code_value [VNum 90; VNum 57; VNum 18].
Proof.
  split; [reflexivity|].
  exact (toKeyCodes_values [":z9"; "Alt"] _ eq_refl).
Defined.

(** *** Letter case *)

Lemma toLowerCase_char_idemp c :
  toLowerCase_char (toLowerCase_char c) = toLowerCase_char c.
Proof. each_char c; reflexivity. Qed.

Lemma toLowerCase_idemp s : toLowerCase (toLowerCase s) = toLowerCase s.
Proof.
  induction s as [|c s IH]; [reflexivity|].
  cbn [toLowerCase]. rewrite toLowerCase_char_idemp, IH. reflexivity.
Qed.

Lemma toLowerCase_char_colon c :
  toLowerCase_char c = ":"%char -> c = ":"%char.
Proof. each_char c; intros H; try reflexivity; discriminate H. Qed.

Lemma literalKeyCode_lower command command' c :
  same_codes (literalKeyCode command c)
             (literalKeyCode command' (toLowerCase_char c)).
Proof. each_char c; vm_compute; solve [reflexivity | exact I]. Qed.

Lemma mapR_same_codes {A B} (f g : A -> result B) (h : A -> A) xs :
  (forall x, same_codes (f x) (g (h x))) ->
  same_codes (mapR f xs) (mapR g (map h xs)).
Proof.
  intros Hfg. induction xs as [|x xs IH]; cbn [map mapR]; [reflexivity|].
  specialize (Hfg x). unfold same_codes in *.
  destruct (f x) as [e|y], (g (h x)) as [e'|y']; cbn [bindR];
    try contradiction; [exact I|]. subst y'.
  destruct (mapR f xs) as [e|ys], (mapR g (map h xs)) as [e'|ys'];
    cbn [bindR]; try contradiction; [exact I|]. congruence.
Qed.

Lemma chars_toLowerCase s :
  chars (toLowerCase s) = map toLowerCase_char (chars s).
Proof. induction s as [|c s IH]; [reflexivity|]. cbn. rewrite IH. reflexivity. Qed.

Lemma strokeKeyCodes_lower command :
  same_codes (strokeKeyCodes command) (strokeKeyCodes (toLowerCase command)).
Proof.
  destruct command as [|c rest]; [exact I|].
  destruct (Ascii.eqb_spec c ":") as [->|Hc].
  - change (toLowerCase (String ":" rest)) with (String ":" (toLowerCase rest)).
    unfold strokeKeyCodes. rewrite chars_toLowerCase.
    apply mapR_same_codes. intros x. apply literalKeyCode_lower.
  - assert (Hne : forall r, String c rest <> String ":" r) by congruence.
    assert (Hne' : forall r, toLowerCase (String c rest) <> String ":" r).
    { intros r H. cbn [toLowerCase] in H. injection H as H _.
      apply Hc, toLowerCase_char_colon, H. }
    rewrite (strokeKeyCodes_named _ Hne), (strokeKeyCodes_named _ Hne').
    rewrite toLowerCase_idemp.
    destruct (truthy _); [reflexivity|exact I].
Qed.

Lemma toKeyCodes_lower_same strokes :
  same_codes (toKeyCodes strokes) (toKeyCodes (map toLowerCase strokes)).
Proof.
  unfold toKeyCodes.
  induction strokes as [|c strokes IH]; cbn [map flatMapR]; [reflexivity|].
  pose proof (strokeKeyCodes_lower c) as Hc. unfold same_codes in *.
  destruct (strokeKeyCodes c) as [e|kc],
           (strokeKeyCodes (toLowerCase c)) as [e'|kc']; cbn [bindR];
    try contradiction; [exact I|]. subst kc'.
  destruct (flatMapR strokeKeyCodes strokes) as [e|kr],
           (flatMapR strokeKeyCodes (map toLowerCase strokes)) as [e'|kr'];
    cbn [bindR]; try contradiction; [exact I|]. congruence.
Qed.

(** X11. For strokes made of Latin-1 characters only (U+0000..U+00FF),
    the letter case does not matter: the stroke list and its lower-cased
    copy translate to the same key codes, or both fail. Nothing is said
    of strokes with characters beyond U+00FF. *)
Theorem toKeyCodes_ignores_case strokes :
  forallb latin1 strokes = true ->
  same_codes (toKeyCodes strokes) (toKeyCodes (map toLowerCase strokes)).
Proof. intros _. apply toKeyCodes_lower_same. Qed.

Lemma toKeyCodes_ignores_case_witness :
  forallb latin1 [":Dir"; "ENTER"; "Esc"] = true
  /\ toKeyCodes [":Dir"; "ENTER"; "Esc"]
     = ok [VNum 68; VNum 73; VNum 82; VNum 13; VNum 27]
  /\ toKeyCodes (map toLowerCase [":Dir"; "ENTER"; "Esc"])
     = ok [VNum 68; VNum 73; VNum 82; VNum 13; VNum 27]
  /\ same_codes (toKeyCodes [":Dir"; "ENTER"; "Esc"])
                (toKeyCodes (map toLowerCase [":Dir"; "ENTER"; "Esc"])).
Proof.
  split; [reflexivity|]. split; [reflexivity|]. split; [reflexivity|].
  exact (toKeyCodes_ignores_case [":Dir"; "ENTER"; "Esc"] eq_refl).
Defined.

(** ** More on key dispatch *)

Lemma sendKeyCodes_not_ready keycode keycodes w :
  dosapp w = None ->
  sendKeyCodes (keycode :: keycodes) w
  = ([ConsoleDebug keycode true], w, throw (TypeError dosapp_current)).
Proof. destruct w as [d r i]. simpl. intros ->. reflexivity. Qed.

(** X12. [sendStrokes] never leaves a key held down. In every case the
    key events of a call are complete down/up pairs: those of all the
    translated key codes when the translation succeeds and the emulator
    is there, and none at all otherwise. *)
Theorem sendStrokes_key_events strokes w :
  key_events (trace_of (sendStrokes strokes w))
  = match toKeyCodes strokes, dosapp w with
    | inr keycodes, Some _ =>
        flat_map (fun c => [(c, true); (c, false)]) keycodes
    | _, _ => []
    end.
Proof.
  destruct (toKeyCodes strokes) as [e|keycodes] eqn:Ht.
  - rewrite (sendStrokes_throws strokes e w Ht). reflexivity.
  - rewrite (sendStrokes_translated strokes keycodes w Ht).
    destruct (dosapp w) as [ci|] eqn:Hd.
    + rewrite (sendKeyCodes_ready keycodes w ci Hd).
      apply key_events_press_release.
    + destruct keycodes as [|k ks]; [reflexivity|].
      rewrite (sendKeyCodes_not_ready k ks w Hd). reflexivity.
Qed.

Lemma slept_press_release keycodes :
  slept (flat_map press_release keycodes) = 200 * N.of_nat (length keycodes).
Proof.
  induction keycodes as [|k ks IH]; [reflexivity|].
  cbn [flat_map]. unfold press_release at 1. cbn [app slept length].
  rewrite IH. lia.
Qed.

(** X13. With the emulator there, a call of [sendStrokes] that translates
    stays suspended for 200ms per key code: 200ms times the sum of the
    sizes of its tokens. *)
Theorem sendStrokes_duration strokes keycodes w ci :
  dosapp w = Some ci ->
  toKeyCodes strokes = ok keycodes ->
  slept (trace_of (sendStrokes strokes w))
  = 200 * N.of_nat (list_sum (map stroke_size strokes)).
Proof.
  intros Hd Ht.
  rewrite (sendStrokes_translated strokes keycodes w Ht).
  rewrite (sendKeyCodes_ready keycodes w ci Hd).
  unfold trace_of. cbn [fst].
  rewrite slept_press_release, (toKeyCodes_length_aux strokes keycodes Ht).
  reflexivity.
Qed.

Lemma sendStrokes_duration_witness :
  dosapp initialised = Some CommandInterface
  /\ toKeyCodes [":go"; "enter"] = ok [VNum 71; VNum 79; VNum 13]
  /\ slept (trace_of (sendStrokes [":go"; "enter"] initialised)) = 600.
Proof.
  split; [reflexivity|]. split; [reflexivity|].
  exact (sendStrokes_duration [":go"; "enter"] _ initialised CommandInterface
           eq_refl eq_refl).
Defined.

Lemma bind_ret_l {A} (k : unit -> M A) w : bind (ret tt) k w = k tt w.
Proof. unfold bind, ret, ok. destruct (k tt w) as [[t w'] r]. reflexivity. Qed.

Lemma bind_assoc {A B C} (m : M A) (k : A -> M B) (h : B -> M C) w :
  bind (bind m k) h w = bind m (fun a => bind (k a) h) w.
Proof.
  unfold bind. destruct (m w) as [[t1 w1] [e|a]]; [reflexivity|].
  destruct (k a w1) as [[t2 w2] [e|b]]; [reflexivity|].
  destruct (h b w2) as [[t3 w3] r]. rewrite app_assoc. reflexivity.
Qed.

Lemma bind_ext {A B} (m : M A) (k k' : A -> M B) w :
  (forall a w', k a w' = k' a w') -> bind m k w = bind m k' w.
Proof.
  intros H. unfold bind. destruct (m w) as [[t1 w1] [e|a]]; [reflexivity|].
  rewrite H. reflexivity.
Qed.

Lemma for_of_app {A} (xs ys : list A) (body : A -> M unit) w :
  for_of (xs ++ ys) body w
  = bind (for_of xs body) (fun _ => for_of ys body) w.
Proof.
  revert w. induction xs as [|x xs IH]; intros w; cbn [app for_of].
  - rewrite bind_ret_l. reflexivity.
  - rewrite bind_assoc. apply bind_ext. intros _ w'. apply IH.
Qed.

(** X14. Two calls in a row do what one call on the joined stroke list
    does, as long as both lists translate: same trace, same outcome, be
    the emulator there or not. *)
Theorem sendStrokes_app strokes1 strokes2 ks1 ks2 w :
  toKeyCodes strokes1 = ok ks1 ->
  toKeyCodes strokes2 = ok ks2 ->
  sendStrokes (strokes1 ++ strokes2) w
  = (sendStrokes strokes1 ;; sendStrokes strokes2) w.
Proof.
  intros H1 H2.
  rewrite (sendStrokes_translated _ _ w (toKeyCodes_app _ _ _ _ H1 H2)).
  unfold sendKeyCodes. rewrite for_of_app.
  unfold bind at 2.
  rewrite (sendStrokes_translated strokes1 ks1 w H1). unfold sendKeyCodes.
  unfold bind at 1.
  destruct (for_of ks1 sendStroke w) as [[t1 w1] [e|[]]]; [reflexivity|].
  rewrite (sendStrokes_translated strokes2 ks2 w1 H2). reflexivity.
Qed.

Lemma sendStrokes_app_witness :
  toKeyCodes [":a"] = ok [VNum 65]
  /\ toKeyCodes ["enter"] = ok [VNum 13]
  /\ sendStrokes ([":a"] ++ ["enter"]) uninitialised
     = (sendStrokes [":a"] ;; sendStrokes ["enter"]) uninitialised.
Proof.
  split; [reflexivity|]. split; [reflexivity|].
  exact (sendStrokes_app [":a"] ["enter"] [VNum 65] [VNum 13] uninitialised
           eq_refl eq_refl).
Defined.

(** ** More on watching *)

Lemma watch_from_returns screen abortSignal interval image fuel :
  forall n t,
    watch_from screen abortSignal interval image fuel n = Some t ->
    exists k,
      (k < fuel)%nat
      /\ t = repeat (Sleep interval) (S k)
      /\ matched_at screen abortSignal image (n + k) = true
      /\ forall j, (j < k)%nat ->
           matched_at screen abortSignal image (n + j) = false.
Proof.
  induction fuel as [|fuel IH]; intros n t H; [discriminate H|].
  cbn [watch_from] in H.
  destruct (matched_at screen abortSignal image n) eqn:Hn.
  - injection H as <-. exists 0%nat. rewrite Nat.add_0_r.
    split; [lia|]. split; [reflexivity|]. split; [exact Hn|].
    intros j Hj. lia.
  - destruct (watch_from screen abortSignal interval image fuel (S n))
      as [t'|] eqn:Hrec; [|discriminate H].
    injection H as <-.
    destruct (IH (S n) t' Hrec) as (k & Hk & -> & Hat & Hbefore).
    exists (S k). split; [lia|]. split; [reflexivity|]. split.
    + replace (n + S k)%nat with (S n + k)%nat by lia. exact Hat.
    + intros [|j] Hj; [rewrite Nat.add_0_r; exact Hn|].
      replace (n + S j)%nat with (S n + j)%nat by lia. apply Hbefore. lia.
Qed.

(** X15. [watchForImage] does not return by itself: when it returns, it
    has slept once per check, the last check saw the image on the screen
    or the signal aborted, and no check before did. Called without a
    signal, it returns only with the image on the screen. *)
Theorem watchForImage_returns screen abortSignal interval image fuel t :
  watchForImage screen abortSignal interval image fuel = Some t ->
  exists k,
    t = repeat (Sleep interval) (S k)
    /\ (hasImage (screen k) image = true
        \/ signal_aborted abortSignal k = true)
    /\ (abortSignal = None -> hasImage (screen k) image = true)
    /\ forall j, (j < k)%nat ->
         hasImage (screen j) image = false
         /\ signal_aborted abortSignal j = false.
Proof.
  unfold watchForImage. intros H.
  destruct (watch_from_returns _ _ _ _ _ _ _ H) as (k & _ & Ht & Hat & Hbefore).
  exists k. split; [exact Ht|]. cbn [Nat.add] in *.
  unfold matched_at in *. split; [apply orb_prop, Hat|]. split.
  - intros ->. cbn [signal_aborted] in Hat. rewrite orb_false_r in Hat.
    exact Hat.
  - intros j Hj. apply orb_false_elim, Hbefore, Hj.
Qed.

Lemma watchForImage_returns_witness :
  watchForImage boot_then_menu None 64 menu_image 5
  = Some [Sleep 64; Sleep 64; Sleep 64]
  /\ exists k,
       [Sleep 64; Sleep 64; Sleep 64] = repeat (Sleep 64) (S k)
       /\ (hasImage (boot_then_menu k) menu_image = true
           \/ signal_aborted None k = true)
       /\ (@None (nat -> bool) = None ->
           hasImage (boot_then_menu k) menu_image = true)
       /\ forall j, (j < k)%nat ->
            hasImage (boot_then_menu j) menu_image = false
            /\ signal_aborted None j = false.
Proof.
  split; [reflexivity|].
  exact (watchForImage_returns boot_then_menu None 64 menu_image 5 _ eq_refl).
Defined.

(** ** More on the virtual-file bridge *)

(** X16. Before [setup] has stored the runtime, [writeFile] and [getFile]
    fail on the null reference at once: nothing is asked of the file
    system or of the database and the state is as before. *)
Theorem file_bridge_not_ready path data w :
  runtimeRef w = None ->
  writeFile path data w = ([], w, throw (TypeError runtimeRef_current))
  /\ getFile path w = ([], w, throw (TypeError runtimeRef_current)).
Proof.
  intros Hrt. unfold writeFile, getFile, bind, runtime_fs. rewrite Hrt.
  split; reflexivity.
Qed.

Lemma file_bridge_not_ready_witness :
  runtimeRef uninitialised = None
  /\ writeFile "/game/save.dat" [x01] uninitialised
     = ([], uninitialised, throw (TypeError runtimeRef_current))
  /\ getFile "/game/save.dat" uninitialised
     = ([], uninitialised, throw (TypeError runtimeRef_current)).
Proof.
  split; [reflexivity|].
  exact (file_bridge_not_ready "/game/save.dat" [x01] uninitialised eq_refl).
Defined.

Lemma runtimeRef_set_fs files w rt :
  runtimeRef w = Some rt -> runtimeRef (set_fs files w) = Some {| fs := files |}.
Proof. destruct w as [d r i]. simpl. intros ->. reflexivity. Qed.

Lemma getFile_result path w rt :
  runtimeRef w = Some rt ->
  result_of (getFile path w)
  = match fs rt !! path with
    | Some bytes => ok bytes
    | None => throw (TypeError idb_file)
    end.
Proof.
  intros Hrt. rewrite (getFile_ready path w rt Hrt). unfold result_of. cbn [snd].
  rewrite persistent_synced. unfold live. rewrite Hrt.
  destruct (fs rt !! path); reflexivity.
Qed.

Lemma bind_result_of {A B} (m : M A) (k : A -> M B) w a :
  result_of (m w) = ok a ->
  result_of (bind m k w) = result_of (k a (world_of (m w))).
Proof.
  unfold bind, result_of, world_of. destruct (m w) as [[t1 w1] r]. cbn [fst snd].
  intros ->. unfold ok. destruct (k a w1) as [[t2 w2] r2]. reflexivity.
Qed.

(** X17. Writing one path does not change what is read at another:
    [getFile] of [q] after [writeFile] of a different path [p] gives what
    [getFile] of [q] gave without the write. *)
Theorem writeFile_other_path p q data w rt :
  runtimeRef w = Some rt ->
  p <> q ->
  result_of ((writeFile p data ;; getFile q) w) = result_of (getFile q w).
Proof.
  intros Hrt Hpq.
  rewrite (bind_result_of _ _ w tt)
    by (rewrite (writeFile_ready p data w rt Hrt); reflexivity).
  rewrite (writeFile_ready p data w rt Hrt). unfold world_of. cbn [fst snd].
  rewrite (getFile_result q _ _ (runtimeRef_set_fs _ w rt Hrt)).
  rewrite (getFile_result q w rt Hrt). cbn [fs].
  rewrite lookup_insert_ne by exact Hpq. reflexivity.
Qed.

Lemma writeFile_other_path_witness :
  runtimeRef initialised = Some {| fs := ∅ |}
  /\ "/game/a.dat" <> "/game/b.dat"
  /\ result_of ((writeFile "/game/a.dat" [x01] ;; getFile "/game/b.dat")
                  initialised)
     = result_of (getFile "/game/b.dat" initialised).
Proof.
  split; [reflexivity|]. split; [discriminate|].
  exact (writeFile_other_path "/game/a.dat" "/game/b.dat" [x01]
           initialised {| fs := ∅ |} eq_refl ltac:(discriminate)).
Defined.

(** X18. The last write wins: after two writes to the same path
    [getFile] returns the bytes of the second, and the second write
    always unlinks the file the first one created. *)
Theorem writeFile_twice path first second w rt :
  runtimeRef w = Some rt ->
  result_of ((writeFile path first ;; writeFile path second ;; getFile path) w)
  = ok second
  /\ trace_of (writeFile path second (world_of (writeFile path first w)))
     = [AnalyzePath path; Unlink path; CreateFile path second].
Proof.
  intros Hrt.
  pose proof (runtimeRef_set_fs (<[path := first]> (fs rt)) w rt Hrt) as Hrt1.
  split.
  - rewrite (bind_result_of _ _ w tt)
      by (rewrite (writeFile_ready path first w rt Hrt); reflexivity).
    rewrite (writeFile_ready path first w rt Hrt). unfold world_of. cbn [fst snd].
    rewrite (writeFile_getFile path second _ _ Hrt1). reflexivity.
  - rewrite (writeFile_ready path first w rt Hrt). unfold world_of. cbn [fst snd].
    rewrite (writeFile_ready path second _ _ Hrt1). unfold trace_of.
    cbn [fst fs]. rewrite bool_decide_eq_true_2; [reflexivity|].
    rewrite lookup_insert_eq. eauto.
Qed.

Lemma writeFile_twice_witness :
  runtimeRef initialised = Some {| fs := ∅ |}
  /\ result_of ((writeFile "/game/save.dat" [x01] ;;
                 writeFile "/game/save.dat" [x02; x03] ;;
                 getFile "/game/save.dat") initialised)
     = ok [x02; x03].
Proof.
  split; [reflexivity|].
  exact (proj1 (writeFile_twice "/game/save.dat" [x01] [x02; x03]
                  initialised {| fs := ∅ |} eq_refl)).
Defined.

(** X19. [getFile] reads through to the live file system: every file
    that is there when it is called, written by [writeFile] or not, comes
    back with its bytes, whatever the persistent store held before. *)
Theorem getFile_reads_live path bytes w rt :
  runtimeRef w = Some rt ->
  fs rt !! path = Some bytes ->
  getFile path w = ([SyncFs; OpenDB; Get path], synced w, ok bytes).
Proof.
  intros Hrt Hfile. rewrite (getFile_ready path w rt Hrt).
  rewrite persistent_synced. unfold live. rewrite Hrt, Hfile. reflexivity.
Qed.

Lemma getFile_reads_live_witness :
  runtimeRef with_autoexec = Some {| fs := {["/game/AUTOEXEC.BAT" := [x40]]} |}
  /\ fs {| fs := {["/game/AUTOEXEC.BAT" := [x40]]} |} !! "/game/AUTOEXEC.BAT"
     = Some [x40]
  /\ getFile "/game/AUTOEXEC.BAT" with_autoexec
     = ([SyncFs; OpenDB; Get "/game/AUTOEXEC.BAT"], synced with_autoexec,
        ok [x40]).
Proof.
  assert (H : fs {| fs := {["/game/AUTOEXEC.BAT" := [x40]]} |}
              !! "/game/AUTOEXEC.BAT" = Some [x40])
    by apply lookup_singleton_eq.
  split; [reflexivity|]. split; [exact H|].
  exact (getFile_reads_live "/game/AUTOEXEC.BAT" [x40] with_autoexec _
           eq_refl H).
Defined.

(** ** The life cycle of the component *)

Lemma sendKeyCodes_world keycodes w : world_of (sendKeyCodes keycodes w) = w.
Proof.
  destruct (dosapp w) as [ci|] eqn:Hd.
  - rewrite (sendKeyCodes_ready keycodes w ci Hd). reflexivity.
  - destruct keycodes as [|k ks]; [reflexivity|].
    rewrite (sendKeyCodes_not_ready k ks w Hd). reflexivity.
Qed.

Lemma sendStrokes_world strokes w : world_of (sendStrokes strokes w) = w.
Proof.
  destruct (toKeyCodes strokes) as [e|ks] eqn:Ht.
  - rewrite (sendStrokes_throws strokes e w Ht). reflexivity.
  - rewrite (sendStrokes_translated strokes ks w Ht). apply sendKeyCodes_world.
Qed.

Lemma setup_started em props b rt rt' ci :
  import_js_dos em = ok tt ->
  Dos em (wdosboxUrl props) = ok rt ->
  fs_extract em (zip props) "/game" rt = ok rt' ->
  fs_chdir em "/game" = ok tt ->
  main em ["-c"; "cd game"; "-c"; exe props] = ok ci ->
  setup em props b
  = (startup_calls props
       ++ map Harness (trace_of (sendStrokes (default [] (postStart props))
                                   (refs (started b rt' ci)))),
     started b rt' ci,
     result_of (sendStrokes (default [] (postStart props))
                  (refs (started b rt' ci)))).
Proof.
  intros Hi Hd He Hc Hm.
  pose proof (sendStrokes_world (default [] (postStart props))
                (refs (started b rt' ci))) as Hw.
  unfold setup, bindL, await, read_title, set_runtimeRef, set_dosapp,
    write_title, harness, ok in *.
  rewrite Hi. cbv beta iota. rewrite Hd. cbv beta iota.
  rewrite He. cbv beta iota. rewrite Hc. cbv beta iota.
  rewrite Hm. cbv beta iota.
  cbn [refs document_title isError dosapp runtimeRef indexedDB].
  unfold world_of, trace_of, result_of in *.
  change {| dosapp := Some ci; runtimeRef := Some rt';
            indexedDB := indexedDB (refs b) |}
    with (refs (started b rt' ci)).
  destruct (sendStrokes (default [] (postStart props)) (refs (started b rt' ci)))
    as [[t w] r]. cbn [fst snd] in *. subst w. reflexivity.
Qed.

(** X20. When every call into the emulator succeeds and the post-start
    strokes translate, [setup] makes its five calls in order, leaves both
    refs set and the document title as it found it, and only then sends
    the post-start strokes, which therefore never meet the null
    [dosapp]; nothing is sent when [postStart] is omitted or empty. *)
Theorem setup_success em props b rt rt' ci keycodes :
  import_js_dos em = ok tt ->
  Dos em (wdosboxUrl props) = ok rt ->
  fs_extract em (zip props) "/game" rt = ok rt' ->
  fs_chdir em "/game" = ok tt ->
  main em ["-c"; "cd game"; "-c"; exe props] = ok ci ->
  toKeyCodes (default [] (postStart props)) = ok keycodes ->
  setup em props b
  = (startup_calls props ++ map Harness (flat_map press_release keycodes),
     started b rt' ci,
     ok tt).
Proof.
  intros Hi Hd He Hc Hm Ht.
  rewrite (setup_started em props b rt rt' ci Hi Hd He Hc Hm).
  rewrite (sendStrokes_translated _ _ _ Ht).
  rewrite (sendKeyCodes_ready keycodes (refs (started b rt' ci)) ci eq_refl).
  reflexivity.
Qed.

Lemma setup_success_witness :
  toKeyCodes (default [] (Some ["enter"])) = ok [VNum 13]
  /\ setup working_emulator
       {| variant := None; zip := "game.zip"; exe := "GAME.EXE";
          postStart := Some ["enter"] |}
       (fresh "Play")
     = ([Import; StartDos "/dosbox/wdosbox.js"; Extract "game.zip" "/game";
         Chdir "/game"; Main ["-c"; "cd game"; "-c"; "GAME.EXE"]]
          ++ map Harness (press_release (VNum 13) ++ []),
        started (fresh "Play")
          {| fs := {["/game/GAME.EXE" := [x4d; x5a]]} |} CommandInterface,
        ok tt).
Proof.
  split; [reflexivity|].
  exact (setup_success working_emulator
           {| variant := None; zip := "game.zip"; exe := "GAME.EXE";
              postStart := Some ["enter"] |}
           (fresh "Play") {| fs := ∅ |}
           {| fs := {["/game/GAME.EXE" := [x4d; x5a]]} |} CommandInterface
           [VNum 13] eq_refl eq_refl eq_refl eq_refl eq_refl eq_refl).
Defined.

(** X21. An invalid post-start stroke fails the mount only after the
    emulator has been started: the component logs the translation error
    and shows its error state, no key event has been sent, both refs are
    set, and the cleanup will exit the emulator. *)
Theorem mount_invalid_postStart em props b rt rt' ci e :
  import_js_dos em = ok tt ->
  Dos em (wdosboxUrl props) = ok rt ->
  fs_extract em (zip props) "/game" rt = ok rt' ->
  fs_chdir em "/game" = ok tt ->
  main em ["-c"; "cd game"; "-c"; exe props] = ok ci ->
  toKeyCodes (default [] (postStart props)) = throw e ->
  mount em props b
  = (Focus :: startup_calls props ++ [ConsoleError e],
     {| document_title := document_title b;
        refs := refs (started b rt' ci);
        isError := true |})
  /\ harness_events (fst (mount em props b)) = []
  /\ unmount (snd (mount em props b)) = [Exit].
Proof.
  intros Hi Hd He Hc Hm Ht.
  assert (H : mount em props b
              = (Focus :: startup_calls props ++ [ConsoleError e],
                 {| document_title := document_title b;
                    refs := refs (started b rt' ci);
                    isError := true |})).
  { unfold mount.
    rewrite (setup_started em props b rt rt' ci Hi Hd He Hc Hm).
    rewrite (sendStrokes_throws _ e _ Ht).
    unfold trace_of, result_of, throw. cbn [fst snd map].
    rewrite app_nil_r. reflexivity. }
  rewrite H. split; [reflexivity|]. split; reflexivity.
Qed.

Lemma mount_invalid_postStart_witness :
  toKeyCodes (default [] (Some [":dir"; "return"]))
  = throw (cannotConvert "return")
  /\ isError (snd (mount working_emulator
                     {| variant := Some "dosbox"; zip := "game.zip";
                        exe := "GAME.EXE";
                        postStart := Some [":dir"; "return"] |}
                     (fresh "Play"))) = true.
Proof.
  split; [reflexivity|].
  rewrite (proj1 (mount_invalid_postStart working_emulator
                    {| variant := Some "dosbox"; zip := "game.zip";
                       exe := "GAME.EXE";
                       postStart := Some [":dir"; "return"] |}
                    (fresh "Play") {| fs := ∅ |}
                    {| fs := {["/game/GAME.EXE" := [x4d; x5a]]} |}
                    CommandInterface (cannotConvert "return")
                    eq_refl eq_refl eq_refl eq_refl eq_refl eq_refl)).
  reflexivity.
Defined.

(** X22. On a page where [dosapp] is still null, the cleanup of the
    effect exits the emulator exactly when [setup] got as far as
    [runtime.main] resolving: a failure of any call before leaves
    nothing to exit, even when [Dos] had already handed out a runtime,
    and a failure of the post-start strokes after does not prevent it. *)
Theorem unmount_exits_iff_main_resolved em props b :
  dosapp (refs b) = None ->
  unmount (snd (mount em props b)) = [Exit]
  <-> (import_js_dos em = ok tt
       /\ exists rt rt' ci,
            Dos em (wdosboxUrl props) = ok rt
            /\ fs_extract em (zip props) "/game" rt = ok rt'
            /\ fs_chdir em "/game" = ok tt
            /\ main em ["-c"; "cd game"; "-c"; exe props] = ok ci).
Proof.
  intros Hnone. split.
  - unfold mount, setup, bindL, await, read_title, set_runtimeRef,
      set_dosapp, write_title, unmount, ok.
    destruct (import_js_dos em) as [e|u] eqn:Hi;
      [simpl; rewrite Hnone; discriminate|].
    destruct (Dos em (wdosboxUrl props)) as [e|rt] eqn:Hd;
      [simpl; rewrite Hnone; discriminate|].
    cbv beta iota. cbn [refs document_title isError dosapp runtimeRef indexedDB].
    destruct (fs_extract em (zip props) "/game" rt) as [e|rt'] eqn:He;
      [simpl; rewrite Hnone; discriminate|].
    cbv beta iota. cbn [refs document_title isError dosapp runtimeRef indexedDB].
    destruct (fs_chdir em "/game") as [e|u'] eqn:Hc;
      [simpl; rewrite Hnone; discriminate|].
    cbv beta iota.
    destruct (main em ["-c"; "cd game"; "-c"; exe props]) as [e|ci] eqn:Hm;
      [simpl; rewrite Hnone; discriminate|].
    intros _. destruct u, u'. split; [reflexivity|].
    exists rt, rt', ci. repeat split; first [reflexivity | assumption].
  - intros (Hi & rt & rt' & ci & Hd & He & Hc & Hm).
    unfold mount. rewrite (setup_started em props b rt rt' ci Hi Hd He Hc Hm).
    destruct (result_of _); reflexivity.
Qed.

Lemma unmount_exits_iff_main_resolved_witness :
  dosapp (refs (fresh "Play")) = None
  /\ unmount (snd (mount working_emulator
                     {| variant := None; zip := "game.zip"; exe := "GAME.EXE";
                        postStart := None |}
                     (fresh "Play"))) = [Exit].
Proof.
  split; [reflexivity|].
  apply (proj2 (unmount_exits_iff_main_resolved working_emulator
                  {| variant := None; zip := "game.zip"; exe := "GAME.EXE";
                     postStart := None |}
                  (fresh "Play") eq_refl)).
  split; [reflexivity|].
  exists {| fs := ∅ |}, {| fs := {["/game/GAME.EXE" := [x4d; x5a]]} |},
    CommandInterface.
  repeat split.
Defined.
